(** * compose generate: from inspected containers to a Compose project

    A shallow embedding of [cmd/compose/generate.go]: the field mappers
    ([getServiceName], [getServiceBindingsPorts], [getServiceEnv],
    [getServiceEntrypoint], [getServiceCmd], [getServiceMounts],
    [getServiceImage]), the assembly of one service and the loop of
    [runGenerate] over the container identifiers, with what it prints and
    what it returns. *)

From Stdlib Require Import ZArith Ascii.
From stdpp Require Import gmap strings list fin_maps pretty.

Local Open Scope string_scope.
Local Open Scope list_scope.
Local Open Scope Z_scope.

(** ** Go's [strings] and [fmt], as far as the file uses them *)

Module GoStrings.

(** [strings.HasPrefix(s, prefix)]. *)
Fixpoint HasPrefix (s prefix : string) : bool :=
  match prefix, s with
  | EmptyString, _ => true
  | String p prefix', String c s' =>
      if decide (c = p) then HasPrefix s' prefix' else false
  | String _ _, EmptyString => false
  end.

(** [s[1:]] on a string that is not empty. On the empty string Go panics;
    the callers below guard the slice by [HasPrefix]. *)
Definition tail1 (s : string) : string :=
  match s with
  | EmptyString => EmptyString
  | String _ s' => s'
  end.

(** [strings.Split(s, sep)] for a separator of one byte: the fields
    between the separators, in order; a string without separator is its
    own single field, the empty string included. *)
Fixpoint Split (s : string) (sep : ascii) : list string :=
  match s with
  | EmptyString => [EmptyString]
  | String c s' =>
      if decide (c = sep) then EmptyString :: Split s' sep
      else match Split s' sep with
           | f :: fs => String c f :: fs
           | [] => [String c EmptyString]
           end
  end.

(** [strings.Join(fields, sep)], the inverse of [Split]. *)
Fixpoint Join (fields : list string) (sep : ascii) : string :=
  match fields with
  | [] => EmptyString
  | [f] => f
  | f :: fs => f +:+ String sep (Join fs sep)
  end.

(** Number of occurrences of the byte [sep] in [s]. *)
Fixpoint Count (s : string) (sep : ascii) : nat :=
  match s with
  | EmptyString => 0%nat
  | String c s' => ((if decide (c = sep) then 1 else 0) + Count s' sep)%nat
  end.

(** The byte [c] occurs in [s]. *)
Fixpoint Contains (s : string) (c : ascii) : bool :=
  match s with
  | EmptyString => false
  | String d s' => if decide (d = c) then true else Contains s' c
  end.

End GoStrings.

(** [fmt.Sprintf("%d", n)]: the decimal digits, with a sign for negatives. *)
Definition Sprintf_d (n : Z) : string := pretty n.

(** A Go slice that the code tells apart from [nil] by [len] only:
    [None] is the nil slice, [Some l] a slice with the elements [l]. *)
Definition len {A} (s : option (list A)) : nat :=
  match s with
  | None => 0%nat
  | Some l => length l
  end.

(** ** The inspect record ([engineTypes.ContainerJSON])

    Only the fields [generate.go] reads. A Go map that the code walks with
    [range] is given as the list of its entries in the order in which this
    run visits them: the keys of one map are pairwise distinct, and Go fixes
    no order between them. *)

(** [nat.Port] is a string type ("80/tcp"). *)
Abbreviation Port := string.

Module PortBinding.
Record t := mk { HostIP : string; HostPort : string }.
End PortBinding.

Module BindOptions.
Record t := mk { Propagation : string; CreateMountpoint : bool }.
End BindOptions.

Module VolumeOptions.
Record t := mk { NoCopy : bool; Subpath : string }.
End VolumeOptions.

Module TmpfsOptions.
(** [SizeBytes] is an [int64], [Mode] an [os.FileMode] (a [uint32]). *)
Record t := mk { SizeBytes : Z; Mode : Z }.
End TmpfsOptions.

Module Mount.
Record t := mk {
  Type_ : string;
  Source : string;
  Target : string;
  ReadOnly : bool;
  Consistency : string;
  BindOptions : option BindOptions.t;
  VolumeOptions : option VolumeOptions.t;
  TmpfsOptions : option TmpfsOptions.t
}.
End Mount.

Module Config.
Record t := mk {
  Image : string;
  Env : list string;
  Entrypoint : option (list string);
  Cmd : option (list string);
  ExposedPorts : list Port
}.
End Config.

Module HostConfig.
Record t := mk {
  PortBindings : list (Port * list PortBinding.t);
  Binds : list string;
  Mounts : list Mount.t
}.
End HostConfig.

Module ContainerJSON.
Record t := mk {
  Name : string;
  Config : Config.t;
  HostConfig : HostConfig.t
}.
End ContainerJSON.

(** ** The Compose model ([types] of compose-go), the fields that are set *)

Module ServicePortConfig.
(** [Target] is a [uint32]; the fields the code leaves at their zero
    value (name, mode, protocol) are not listed. *)
Record t := mk { HostIP : string; Published : string; Target : Z }.
End ServicePortConfig.

Module ServiceVolumeBind.
Record t := mk { Propagation : string; CreateHostPath : bool }.
End ServiceVolumeBind.

Module ServiceVolumeVolume.
Record t := mk { NoCopy : bool; Subpath : string }.
End ServiceVolumeVolume.

Module ServiceVolumeTmpfs.
Record t := mk { Size : Z; Mode : Z }.
End ServiceVolumeTmpfs.

Module ServiceVolumeConfig.
Record t := mk {
  Type_ : string;
  Source : string;
  Target : string;
  ReadOnly : bool;
  Consistency : string;
  Bind : option ServiceVolumeBind.t;
  Volume : option ServiceVolumeVolume.t;
  Tmpfs : option ServiceVolumeTmpfs.t
}.
End ServiceVolumeConfig.

(** [uint32(n)] of a Go [int]. *)
Definition uint32 (n : Z) : Z := n mod 2 ^ 32.

(** ** Name mapper *)

(** [getServiceName]. *)
Definition getServiceName (c : ContainerJSON.t) (seed : Z) : string :=
  if decide (ContainerJSON.Name c ≠ "") then
    if GoStrings.HasPrefix (ContainerJSON.Name c) "/"
    then GoStrings.tail1 (ContainerJSON.Name c)
    else ContainerJSON.Name c
  else "service-" +:+ Sprintf_d seed.

(** ** Port mapper *)

(** The two methods of [nat.Port] the code calls: [Port()], the port number
    as a string, and [Int()], the same as an [int]. They belong to the
    go-connections library; the development holds for every pair of such
    functions. *)
Class PortMethods := {
  Port_Port : Port → string;
  Port_Int : Port → Z
}.

Section PortMapper.
Context `{!PortMethods}.

(** The body of the inner loop: one [ServicePortConfig] per binding, and
    the port number recorded in [portsBinding]. *)
Definition bindOne (port : Port)
    (st : list ServicePortConfig.t * gmap string bool)
    (binding : PortBinding.t) : list ServicePortConfig.t * gmap string bool :=
  let portConfig :=
    {| ServicePortConfig.HostIP := PortBinding.HostIP binding;
       ServicePortConfig.Published := PortBinding.HostPort binding;
       ServicePortConfig.Target := uint32 (Port_Int port) |} in
  (st.1 ++ [portConfig], <[Port_Port port := true]> st.2).

(** The body of the loop over [c.HostConfig.PortBindings]. *)
Definition bindPort (st : list ServicePortConfig.t * gmap string bool)
    (entry : Port * list PortBinding.t) : list ServicePortConfig.t * gmap string bool :=
  if decide (0 < length entry.2)%nat
  then foldl (bindOne entry.1) st entry.2
  else st.

(** The body of the loop over [c.Config.ExposedPorts]. *)
Definition exposeOne (portsBinding : gmap string bool)
    (exposedPorts : list string) (exposed : Port) : list string :=
  if decide (portsBinding !! Port_Port exposed = None)
  then exposedPorts ++ [Port_Port exposed]
  else exposedPorts.

(** [getServiceBindingsPorts]. *)
Definition getServiceBindingsPorts (c : ContainerJSON.t)
    : list ServicePortConfig.t * list string :=
  let st := foldl bindPort ([], ∅)
              (HostConfig.PortBindings (ContainerJSON.HostConfig c)) in
  let exposedPorts := foldl (exposeOne st.2) []
              (Config.ExposedPorts (ContainerJSON.Config c)) in
  (st.1, exposedPorts).

End PortMapper.

(** ** Environment mapper *)

Module MappingWithEquals.

(** Modelled from the spec: [types.NewMappingWithEquals] and its result
    type [types.MappingWithEquals] belong to compose-go and are not among
    the sources. Section 4.3 describes the result as an ordered mapping
    from a key to an optional value that keeps the order of the input,
    where a later occurrence of a key replaces the value of an earlier
    one. It is given here as a list of pairs with distinct keys. *)
Definition t := list (string * option string).

(** Modelled from the spec: one entry, split on the first ['='] only; a
    string without ['='] is a bare key, with no value assigned. *)
Fixpoint cut (env : string) : string * option string :=
  match env with
  | EmptyString => (EmptyString, None)
  | String c env' =>
      if decide (c = "="%char) then (EmptyString, Some env')
      else (String c (cut env').1, (cut env').2)
  end.

(** Modelled from the spec: [mapping[key] = value], in place when the key
    is there already and at the end otherwise. *)
Fixpoint assign (key : string) (value : option string) (mapping : t) : t :=
  match mapping with
  | [] => [(key, value)]
  | (k, v) :: mapping' =>
      if decide (k = key) then (key, value) :: mapping'
      else (k, v) :: assign key value mapping'
  end.

(** [mapping[key]]: [None] when the key is absent, [Some None] when it
    has no value assigned. *)
Fixpoint get (key : string) (mapping : t) : option (option string) :=
  match mapping with
  | [] => None
  | (k, v) :: mapping' => if decide (k = key) then Some v else get key mapping'
  end.

(** Modelled from the spec: [types.NewMappingWithEquals(values)]. *)
Definition NewMappingWithEquals (values : list string) : t :=
  foldl (λ mapping env, assign (cut env).1 (cut env).2 mapping) [] values.

End MappingWithEquals.

(** [getServiceEnv]. *)
Definition getServiceEnv (c : ContainerJSON.t) : MappingWithEquals.t :=
  MappingWithEquals.NewMappingWithEquals (Config.Env (ContainerJSON.Config c)).

(** ** Entrypoint, command and image mappers *)

(** [getServiceEntrypoint]: the conversion to [types.ShellCommand] keeps the
    slice as it is, nil or not. *)
Definition getServiceEntrypoint (c : ContainerJSON.t) : option (list string) :=
  Config.Entrypoint (ContainerJSON.Config c).

(** [getServiceCmd]. *)
Definition getServiceCmd (c : ContainerJSON.t) : option (list string) :=
  Config.Cmd (ContainerJSON.Config c).

(** [getServiceImage]. *)
Definition getServiceImage (c : ContainerJSON.t) : string :=
  Config.Image (ContainerJSON.Config c).

(** ** What a run prints, and the monad of the run *)

(** One constructor per print statement of the file. Errors are carried
    as the text that [%v] prints for them. *)
Inductive event :=
  | Experimental
  | GetwdWarning (err : string)
  | InspectFailed (err : string)
  | BindWarning (bString : string)
  | MarshalFailed (err : string)
  | Document (yaml : string).

Global Instance event_eq_dec : EqDecision event.
Proof. solve_decision. Defined.

Inductive stream := Stdout | Stderr.

(** The stream and the text of each print statement. *)
Definition render (ev : event) : stream * string :=
  match ev with
  | Experimental =>
      (Stderr, "generate command is EXPERIMENTAL ...and it's running ☞ ☁︎ ☀︎" +:+ String "010" "")
  | GetwdWarning err => (Stdout, "warning: unable to get working directory " +:+ err)
  | InspectFailed err => (Stdout, "failed to inspect container: " +:+ err)
  | BindWarning bString => (Stdout, "unable to process bind mount: " +:+ bString)
  | MarshalFailed err => (Stdout, "oops bad " +:+ err)
  | Document yaml => (Stdout, String "010" "" +:+ yaml)
  end.

(** A computation prints events and then returns a value or stops with an
    error: what was printed before the error stays printed. *)
Definition M (E A : Type) : Type := list event * (E + A).

Global Instance M_ret {E} : MRet (M E) := λ A a, ([], inr a).

Global Instance M_bind {E} : MBind (M E) := λ A B k m,
  match m.2 with
  | inl e => (m.1, inl e)
  | inr a => (m.1 ++ (k a).1, (k a).2)
  end.

Definition print {E} (ev : event) : M E unit := ([ev], inr tt).

Definition fail {E A} (e : E) : M E A := ([], inl e).

(** A loop [for _, x := range xs] whose body updates [acc]. *)
Fixpoint forM {E A B} (body : A → B → M E A) (acc : A) (xs : list B) : M E A :=
  match xs with
  | [] => mret acc
  | x :: xs' => acc' ← body acc x; forM body acc' xs'
  end.

(** ** Mount mapper *)

Section MountMapper.
Context {E : Type}.

(** The body of the loop over [c.HostConfig.Binds]. *)
Definition bindMount (mounts : list ServiceVolumeConfig.t) (bString : string)
    : M E (list ServiceVolumeConfig.t) :=
  let options := GoStrings.Split bString ":" in
  match options with
  | source :: target :: _ =>
      let ReadOnly :=
        if decide (length options = 3%nat ∧ options !! 2%nat = Some "rw")
        then false else true in
      mret (mounts ++ [ {|
        ServiceVolumeConfig.Type_ := "bind";
        ServiceVolumeConfig.Source := source;
        ServiceVolumeConfig.Target := target;
        ServiceVolumeConfig.ReadOnly := ReadOnly;
        ServiceVolumeConfig.Consistency := "";
        ServiceVolumeConfig.Bind := None;
        ServiceVolumeConfig.Volume := None;
        ServiceVolumeConfig.Tmpfs := None |} ])
  | _ =>
      print (BindWarning bString);; mret mounts
  end.

(** The body of the loop over [c.HostConfig.Mounts]. *)
Definition structMount (m : Mount.t) : ServiceVolumeConfig.t :=
  {| ServiceVolumeConfig.Type_ := Mount.Type_ m;
     ServiceVolumeConfig.Source := Mount.Source m;
     ServiceVolumeConfig.Target := Mount.Target m;
     ServiceVolumeConfig.ReadOnly := Mount.ReadOnly m;
     ServiceVolumeConfig.Consistency := Mount.Consistency m;
     ServiceVolumeConfig.Bind :=
       (λ o, {| ServiceVolumeBind.Propagation := BindOptions.Propagation o;
                ServiceVolumeBind.CreateHostPath := BindOptions.CreateMountpoint o |})
         <$> Mount.BindOptions m;
     ServiceVolumeConfig.Volume :=
       (λ o, {| ServiceVolumeVolume.NoCopy := VolumeOptions.NoCopy o;
                ServiceVolumeVolume.Subpath := VolumeOptions.Subpath o |})
         <$> Mount.VolumeOptions m;
     ServiceVolumeConfig.Tmpfs :=
       (λ o, {| ServiceVolumeTmpfs.Size := TmpfsOptions.SizeBytes o;
                ServiceVolumeTmpfs.Mode := uint32 (TmpfsOptions.Mode o) |})
         <$> Mount.TmpfsOptions m |}.

(** The first loop of [getServiceMounts], over the legacy binds. *)
Definition legacyBinds (Binds : list string) : M E (list ServiceVolumeConfig.t) :=
  forM bindMount [] Binds.

(** [getServiceMounts]: the legacy binds first, then the mounts. *)
Definition getServiceMounts (c : ContainerJSON.t) : M E (list ServiceVolumeConfig.t) :=
  mounts ← legacyBinds (HostConfig.Binds (ContainerJSON.HostConfig c));
  mret (foldl (λ mounts m, mounts ++ [structMount m]) mounts
          (HostConfig.Mounts (ContainerJSON.HostConfig c))).

End MountMapper.

(** ** Service assembly and the run *)

Module ServiceConfig.
(** [Command] is [None] while the field keeps its zero value, the nil
    slice: the marshalled service then has no command. *)
Record t := mk {
  Name : string;
  Image : string;
  Environment : MappingWithEquals.t;
  Expose : list string;
  Entrypoint : option (list string);
  Ports : list ServicePortConfig.t;
  Volumes : list ServiceVolumeConfig.t;
  Command : option (list string)
}.
End ServiceConfig.

Module Project.
Record t := mk {
  Name : string;
  WorkingDir : string;
  Services : gmap string ServiceConfig.t
}.
End Project.

(** [ProjectOptions], the two fields read through [generateOptions]. *)
Module generateOptions.
Record t := mk { ProjectName : string; WorkDir : string }.
End generateOptions.

(** What the run asks of its collaborators: the engine client
    ([ContainerInspect], whose answer may depend on how many calls came
    before), the process ([os.Getwd]) and the encoder ([MarshalYAML], which
    returns the bytes together with the error, if any). An [error] is
    printed through its [Error()] text. *)
Class World := {
  error : Type;
  Error : error → string;
  ContainerInspect : nat → string → error + ContainerJSON.t;
  Getwd : error + string;
  MarshalYAML : Project.t → string * option error
}.

(** [getName]. *)
Definition getName (opts : generateOptions.t) : string :=
  if decide (generateOptions.ProjectName opts ≠ "")
  then generateOptions.ProjectName opts
  else "".

Section Run.
Context `{!PortMethods} `{!World}.

(** [getWorkingDir]. *)
Definition getWorkingDir (opts : generateOptions.t) : M error string :=
  if decide (generateOptions.WorkDir opts ≠ "")
  then mret (generateOptions.WorkDir opts)
  else match Getwd with
       | inl err => print (GetwdWarning (Error err));; mret ""
       | inr currentWorkDir => mret currentWorkDir
       end.

(** The body of the loop of [runGenerate] after the inspect call: the
    service built for the container at position [i]. *)
Definition assemble (container : ContainerJSON.t) (i : nat) : M error ServiceConfig.t :=
  let name := getServiceName container (Z.of_nat i) in
  let '(ports, expose) := getServiceBindingsPorts container in
  let environment := getServiceEnv container in
  let entrypoint := getServiceEntrypoint container in
  volumes ← getServiceMounts container;
  let image := getServiceImage container in
  let service :=
    {| ServiceConfig.Name := name;
       ServiceConfig.Image := image;
       ServiceConfig.Environment := environment;
       ServiceConfig.Expose := expose;
       ServiceConfig.Entrypoint := entrypoint;
       ServiceConfig.Ports := ports;
       ServiceConfig.Volumes := volumes;
       ServiceConfig.Command := None |} in
  let cmd := getServiceCmd container in
  mret (if decide (0 < len cmd)%nat
        then {| ServiceConfig.Name := name;
                ServiceConfig.Image := image;
                ServiceConfig.Environment := environment;
                ServiceConfig.Expose := expose;
                ServiceConfig.Entrypoint := entrypoint;
                ServiceConfig.Ports := ports;
                ServiceConfig.Volumes := volumes;
                ServiceConfig.Command := cmd |}
        else service).

(** The loop [for i, arg := range args], from position [i] on. *)
Fixpoint inspectAll (i : nat) (args : list string)
    (services : gmap string ServiceConfig.t) : M error (gmap string ServiceConfig.t) :=
  match args with
  | [] => mret services
  | arg :: args' =>
      match ContainerInspect i arg with
      | inl err => print (InspectFailed (Error err));; fail err
      | inr container =>
          service ← assemble container i;
          inspectAll (S i) args' (<[ServiceConfig.Name service := service]> services)
      end
  end.

(** The project that [runGenerate] hands to the encoder. *)
Definition project (opts : generateOptions.t) (args : list string) : M error Project.t :=
  print Experimental;;
  let projectName := getName opts in
  workingDir ← getWorkingDir opts;
  services ← inspectAll 0 args ∅;
  mret {| Project.Name := projectName;
          Project.WorkingDir := workingDir;
          Project.Services := services |}.

(** [runGenerate]: the events printed, and the error returned ([inr tt]
    is Go's [nil]). *)
Definition runGenerate (opts : generateOptions.t) (args : list string) : M error unit :=
  p ← project opts args;
  (match (MarshalYAML p).2 with
   | Some err => print (MarshalFailed (Error err))
   | None => mret tt
   end);;
  print (Document (MarshalYAML p).1);;
  mret tt.

End Run.

(** ** Concrete collaborators, for the examples

    A reading of [nat.Port] after go-connections (the text before the first
    ['/'] is the port number, and [Int] is 0 when that text is not a number
    below 65536), an engine that answers from a table, and encoders that
    succeed or fail. *)

Module Fixture.

Definition digit (c : ascii) : option Z :=
  let n := Z.of_nat (nat_of_ascii c) in
  if decide (48 <= n <= 57) then Some (n - 48) else None.

Fixpoint parseDigits (acc : Z) (s : string) : option Z :=
  match s with
  | EmptyString => Some acc
  | String c s' => d ← digit c; parseDigits (10 * acc + d) s'
  end.

Definition ParsePort (rawPort : string) : Z :=
  match rawPort with
  | EmptyString => 0
  | _ => match parseDigits 0 rawPort with
         | Some n => if decide (n < 65536) then n else 0
         | None => 0
         end
  end.

Definition portNumber (p : Port) : string :=
  match GoStrings.Split p "/" with
  | number :: _ => number
  | [] => ""
  end.

Definition ports : PortMethods :=
  {| Port_Port := portNumber; Port_Int := λ p, ParsePort (portNumber p) |}.

Fixpoint find (table : list (string * ContainerJSON.t)) (arg : string)
    : string + ContainerJSON.t :=
  match table with
  | [] => inl ("No such container: " +:+ arg)
  | (id, c) :: table' => if decide (id = arg) then inr c else find table' arg
  end.

Definition world (table : list (string * ContainerJSON.t))
    (marshal : Project.t → string * option string) : World :=
  {| error := string;
     Error := λ err, err;
     ContainerInspect := λ _ arg, find table arg;
     Getwd := inr "/work";
     MarshalYAML := marshal |}.

(** An encoder that lists the names of the services, and one that fails. *)
Definition names (p : Project.t) : string * option string :=
  (GoStrings.Join ((map_to_list (Project.Services p)).*1) ","%char, None).

Definition broken (p : Project.t) : string * option string :=
  ("", Some "yaml: cannot marshal").

Definition container (Name Image : string) (Cmd : option (list string))
    (ExposedPorts : list Port) (PortBindings : list (Port * list PortBinding.t))
    (Binds : list string) : ContainerJSON.t :=
  {| ContainerJSON.Name := Name;
     ContainerJSON.Config :=
       {| Config.Image := Image; Config.Env := []; Config.Entrypoint := None;
          Config.Cmd := Cmd; Config.ExposedPorts := ExposedPorts |};
     ContainerJSON.HostConfig :=
       {| HostConfig.PortBindings := PortBindings; HostConfig.Binds := Binds;
          HostConfig.Mounts := [] |} |}.

Definition opts : generateOptions.t :=
  {| generateOptions.ProjectName := "demo"; generateOptions.WorkDir := "" |}.

(** The two containers of the end-to-end example of the specification. *)
Definition web : ContainerJSON.t :=
  container "/web" "nginx" None ["80/tcp"]
    [("80/tcp", [ {| PortBinding.HostIP := "0.0.0.0"; PortBinding.HostPort := "8080" |} ])] [].

Definition unnamed : ContainerJSON.t :=
  container "" "busybox" (Some ["sh"; "-c"; "run"]) [] [] [].

End Fixture.

(** ** Notions used to state the properties *)

(** The published-port entry that the inner loop builds for one binding
    of [port]. *)
Definition portConfigOf `{!PortMethods} (port : Port) (binding : PortBinding.t)
    : ServicePortConfig.t :=
  {| ServicePortConfig.HostIP := PortBinding.HostIP binding;
     ServicePortConfig.Published := PortBinding.HostPort binding;
     ServicePortConfig.Target := uint32 (Port_Int port) |}.

(** The record [c] with another host port-binding table. *)
Definition withPortBindings (c : ContainerJSON.t)
    (PortBindings : list (Port * list PortBinding.t)) : ContainerJSON.t :=
  {| ContainerJSON.Name := ContainerJSON.Name c;
     ContainerJSON.Config := ContainerJSON.Config c;
     ContainerJSON.HostConfig :=
       {| HostConfig.PortBindings := PortBindings;
          HostConfig.Binds := HostConfig.Binds (ContainerJSON.HostConfig c);
          HostConfig.Mounts := HostConfig.Mounts (ContainerJSON.HostConfig c) |} |}.


(** The bind mount that the first loop of [getServiceMounts] builds from
    the first two fields of a legacy bind string. *)
Definition legacyBind (source target : string) (ReadOnly : bool) : ServiceVolumeConfig.t :=
  {| ServiceVolumeConfig.Type_ := "bind";
     ServiceVolumeConfig.Source := source;
     ServiceVolumeConfig.Target := target;
     ServiceVolumeConfig.ReadOnly := ReadOnly;
     ServiceVolumeConfig.Consistency := "";
     ServiceVolumeConfig.Bind := None;
     ServiceVolumeConfig.Volume := None;
     ServiceVolumeConfig.Tmpfs := None |}.

(** The events that report an anomaly the run recovers from. *)
Definition is_warning (ev : event) : Prop :=
  match ev with
  | BindWarning _ | GetwdWarning _ => True
  | _ => False
  end.

(** The services of a run in the order of their containers, written one
    after the other into the mapping, as the loop of [runGenerate] does. *)
Definition collect (services : gmap string ServiceConfig.t) (svcs : list ServiceConfig.t)
    : gmap string ServiceConfig.t :=
  foldl (λ services service, <[ServiceConfig.Name service := service]> services)
    services svcs.

(** The engine answers the calls of the loop for [args], the first of which
    is the call number [i] of the run, with the records [cs]. *)
Fixpoint answers `{!World} (i : nat) (args : list string)
    (cs : list ContainerJSON.t) : Prop :=
  match args, cs with
  | [], [] => True
  | arg :: args', c :: cs' => ContainerInspect i arg = inr c ∧ answers (S i) args' cs'
  | _, _ => False
  end.

(** [svcs] are the services assembled for the records [cs], the first of
    which is at position [i]. *)
Fixpoint services_of `{!PortMethods} `{!World} (i : nat)
    (cs : list ContainerJSON.t) (svcs : list ServiceConfig.t) : Prop :=
  match cs, svcs with
  | [], [] => True
  | c :: cs', svc :: svcs' =>
      (∃ w, assemble c i = (w, inr svc)) ∧ services_of (S i) cs' svcs'
  | _, _ => False
  end.

(** The bare port number [k] is that of an entry of the port-binding table
    with at least one host binding. *)
Definition published_port `{!PortMethods} (entries : list (Port * list PortBinding.t))
    (k : string) : Prop :=
  Exists (λ entry, entry.2 ≠ [] ∧ Port_Port entry.1 = k) entries.

Global Instance published_port_dec `{!PortMethods} entries k :
  Decision (published_port entries k).
Proof. unfold published_port. apply _. Defined.



(** [v] is the bind mount of the legacy bind [bString], a string of at
    least two fields: from the first field to the second, read-write when
    the fields are three and the third is [rw], read-only otherwise. *)
Definition legacy_bind_of (bString : string) (v : ServiceVolumeConfig.t) : Prop :=
  ∃ source target rest,
    GoStrings.Split bString ":" = source :: target :: rest
    ∧ v = legacyBind source target (if decide (rest = ["rw"]) then false else true).

(** * Properties *)

(** ** [strings.Split] *)

Section SplitFacts.
Import GoStrings.

Lemma Split_not_nil s sep : Split s sep ≠ [].
Proof.
  destruct s as [|c s]; simpl; [done|].
  case_decide; [done|]. by destruct (Split s sep).
Qed.

Lemma Split_length s sep : length (Split s sep) = S (Count s sep).
Proof.
  induction s as [|c s IH]; simpl; [done|].
  case_decide; simpl; [by rewrite IH|].
  destruct (Split s sep) as [|f fs] eqn:E; simpl in *; [done|lia].
Qed.

Lemma Join_Split s sep : Join (Split s sep) sep = s.
Proof.
  induction s as [|c s IH]; simpl; [done|].
  case_decide as Hc.
  - subst c. pose proof (Split_not_nil s sep).
    destruct (Split s sep) as [|f fs] eqn:E; [done|].
    simpl in *. by rewrite IH.
  - destruct (Split s sep) as [|f fs] eqn:E; [by destruct (Split_not_nil s sep)|].
    destruct fs; simpl in *; by rewrite <- IH.
Qed.

Lemma Split_fields_no_sep s sep f :
  f ∈ Split s sep → Contains f sep = false.
Proof.
  revert f. induction s as [|c s IH]; simpl; intros f Hf.
  - apply list_elem_of_singleton in Hf. by subst.
  - case_decide as Hc.
    + apply elem_of_cons in Hf as [->|Hf]; [done|]. by apply IH.
    + destruct (Split s sep) as [|g gs] eqn:E.
      * apply list_elem_of_singleton in Hf. subst f. simpl.
        by rewrite decide_False.
      * apply elem_of_cons in Hf as [->|Hf].
        -- simpl. rewrite decide_False; [|done]. apply IH. left.
        -- apply IH. by right.
Qed.

Lemma Split_no_sep s sep : Contains s sep = false → Split s sep = [s].
Proof.
  induction s as [|c s IH]; simpl; [done|].
  case_decide; [done|]. intros H'. by rewrite IH.
Qed.

End SplitFacts.

(** ** Name mapper *)

Example getServiceName_web : getServiceName Fixture.web 0 = "web".
Proof. reflexivity. Qed.

Example getServiceName_unnamed : getServiceName Fixture.unnamed 1 = "service-1".
Proof. reflexivity. Qed.

Lemma HasPrefix_slash (s : string) :
  GoStrings.HasPrefix s "/" = true ↔ ∃ rest, s = String "/" rest.
Proof.
  destruct s as [|c s]; simpl.
  - split; [done|]. by intros [? ?].
  - case_decide as Hc.
    + subst c. split; [by eexists|]. intros _. by destruct s.
    + split; [done|]. intros [rest [= -> _]]. done.
Qed.

(** C2, as the specification words it, fails: the name ["/"] is not empty,
    so one separator is stripped and the empty name that results is
    returned as it is, without a synthetic name in its place. *)
Lemma getServiceName_slash_counterexample :
  let c := Fixture.container "/" "img" None [] [] [] in
  GoStrings.tail1 (ContainerJSON.Name c) = ""
  ∧ getServiceName c 0 = ""
  ∧ getServiceName c 0 ≠ "service-0".
Proof. by vm_compute. Qed.

(** C2, amended: a name that starts with ['/'] loses exactly that one
    character; any other name that is not empty is kept as it is; the
    synthetic name [service-<index>] is produced when the display name is
    absent (empty), and only then. The three cases cover every input, and
    the mapper, a total function, has no failure. *)
Theorem getServiceName_spec (c : ContainerJSON.t) (i : nat) :
  (∀ rest, ContainerJSON.Name c = String "/" rest →
     getServiceName c (Z.of_nat i) = rest)
  ∧ (ContainerJSON.Name c ≠ "" →
     GoStrings.HasPrefix (ContainerJSON.Name c) "/" = false →
     getServiceName c (Z.of_nat i) = ContainerJSON.Name c)
  ∧ (ContainerJSON.Name c = "" →
     getServiceName c (Z.of_nat i) = "service-" +:+ pretty (Z.of_nat i)).
Proof.
  unfold getServiceName, Sprintf_d. split_and!.
  - intros rest Hn. rewrite Hn. case_decide; [|done].
    simpl. by destruct rest.
  - intros Hne Hp. case_decide; [|done]. by rewrite Hp.
  - intros Hn. case_decide; done.
Qed.

Lemma getServiceName_spec_witness :
  getServiceName Fixture.web (Z.of_nat 0) = "web"
  ∧ getServiceName Fixture.unnamed (Z.of_nat 1) = "service-" +:+ pretty (Z.of_nat 1).
Proof.
  split.
  - apply (proj1 (getServiceName_spec Fixture.web 0)). reflexivity.
  - apply (proj2 (proj2 (getServiceName_spec Fixture.unnamed 1))). reflexivity.
Defined.

(** ** Port mapper *)

Section PortFacts.
Context `{!PortMethods}.

Implicit Types (st : list ServicePortConfig.t * gmap string bool).
Implicit Types (entry : Port * list PortBinding.t).

Lemma foldl_bindOne port bindings st :
  foldl (bindOne port) st bindings
  = (st.1 ++ (portConfigOf port <$> bindings),
     if bindings is [] then st.2 else <[Port_Port port := true]> st.2).
Proof.
  revert st. induction bindings as [|b bs IH]; intros [ports pb]; simpl.
  - by rewrite app_nil_r.
  - rewrite IH. simpl. rewrite <- app_assoc. f_equal.
    destruct bs; [done|]. by rewrite insert_insert_eq.
Qed.

Lemma bindPort_unfold st entry :
  bindPort st entry
  = (st.1 ++ (portConfigOf entry.1 <$> entry.2),
     if entry.2 is [] then st.2 else <[Port_Port entry.1 := true]> st.2).
Proof.
  unfold bindPort. destruct entry as [port [|b bs]]; simpl.
  - rewrite app_nil_r. by destruct st.
  - apply (foldl_bindOne port (b :: bs)).
Qed.

Lemma bindPort_empty st port : bindPort st (port, []) = st.
Proof. done. Qed.

Lemma foldl_bindPort_ports entries st :
  (foldl bindPort st entries).1
  = st.1 ++ (entries ≫= λ entry, portConfigOf entry.1 <$> entry.2).
Proof.
  revert st. induction entries as [|e es IH]; intros st; simpl.
  - by rewrite app_nil_r.
  - rewrite IH, bindPort_unfold. simpl. by rewrite <- app_assoc.
Qed.

Lemma foldl_bindPort_marks entries st k :
  (foldl bindPort st entries).2 !! k = None
  ↔ st.2 !! k = None ∧ ∀ entry, entry ∈ entries → entry.2 ≠ [] → Port_Port entry.1 ≠ k.
Proof.
  revert st. induction entries as [|e es IH]; intros st; simpl.
  - split; [|by intros [? _]]. intros ?. split; [done|]. by intros ? ?%elem_of_nil.
  - rewrite IH, bindPort_unfold. simpl. split.
    + intros [Hk Hes]. destruct (e.2) as [|b bs] eqn:He.
      * split; [done|]. intros e' [->|?]%elem_of_cons; [congruence|by apply Hes].
      * apply lookup_insert_None in Hk as [Hk Hne].
        split; [done|]. intros e' [->|?]%elem_of_cons; [done|by apply Hes].
    + intros [Hk Hes]. split.
      * destruct (e.2) as [|b bs] eqn:He; [done|].
        apply lookup_insert_None. split; [done|].
        apply Hes; [left|congruence].
      * intros e' He'. apply Hes. by right.
Qed.

Lemma foldl_exposeOne portsBinding exposed acc :
  foldl (exposeOne portsBinding) acc exposed
  = acc ++ (Port_Port <$> filter (λ p, portsBinding !! Port_Port p = None) exposed).
Proof.
  revert acc. induction exposed as [|p ps IH]; intros acc; simpl.
  - by rewrite app_nil_r.
  - rewrite IH. unfold exposeOne. rewrite filter_cons.
    case_decide; simpl; [|done]. by rewrite <- app_assoc.
Qed.

Lemma getServiceBindingsPorts_unfold c :
  getServiceBindingsPorts c
  = (HostConfig.PortBindings (ContainerJSON.HostConfig c)
       ≫= (λ entry, portConfigOf entry.1 <$> entry.2),
     Port_Port <$>
       filter (λ p, (foldl bindPort ([], ∅)
                       (HostConfig.PortBindings (ContainerJSON.HostConfig c))).2
                    !! Port_Port p = None)
              (Config.ExposedPorts (ContainerJSON.Config c))).
Proof.
  unfold getServiceBindingsPorts. by rewrite foldl_bindPort_ports, foldl_exposeOne.
Qed.



(** C1: the entry [(port, bindings)] of the host port-binding table
    contributes, at its place between what the entries before it and the
    entries after it contribute, exactly one published-port entry per
    binding, with that binding's host IP and host port and the container
    port as target; when it has at least one binding, the bare port number
    is absent from the exposed-port list; when its binding list is empty it
    contributes no entry and marks nothing, the result being the one of the
    table without it. *)
Theorem published_ports_per_binding c pre port bindings post :
  HostConfig.PortBindings (ContainerJSON.HostConfig c) = pre ++ (port, bindings) :: post →
  (getServiceBindingsPorts c).1
  = (getServiceBindingsPorts (withPortBindings c pre)).1
    ++ ((λ binding,
          {| ServicePortConfig.HostIP := PortBinding.HostIP binding;
             ServicePortConfig.Published := PortBinding.HostPort binding;
             ServicePortConfig.Target := uint32 (Port_Int port) |}) <$> bindings)
    ++ (getServiceBindingsPorts (withPortBindings c post)).1
  ∧ (bindings ≠ [] → Port_Port port ∉ (getServiceBindingsPorts c).2)
  ∧ (bindings = [] →
     getServiceBindingsPorts (withPortBindings c (pre ++ post))
     = getServiceBindingsPorts c).
Proof.
  intros Hc. split_and!.
  - rewrite !getServiceBindingsPorts_unfold. simpl.
    by rewrite Hc, bind_app, bind_cons.
  - intros Hne. rewrite getServiceBindingsPorts_unfold. simpl.
    intros (p & Hp & Hin)%list_elem_of_fmap.
    apply list_elem_of_filter in Hin as [Hmark _].
    apply foldl_bindPort_marks in Hmark as [_ Hall].
    apply (Hall (port, bindings)); [|done..].
    rewrite Hc. apply elem_of_app. right. left.
  - intros ->. unfold getServiceBindingsPorts. simpl.
    by rewrite Hc, !foldl_app.
Qed.

End PortFacts.

Lemma published_ports_per_binding_witness :
  (@getServiceBindingsPorts Fixture.ports Fixture.web).1
  = [ {| ServicePortConfig.HostIP := "0.0.0.0";
         ServicePortConfig.Published := "8080";
         ServicePortConfig.Target := 80 |} ]
  ∧ "80" ∉ (@getServiceBindingsPorts Fixture.ports Fixture.web).2.
Proof.
  pose proof (@published_ports_per_binding Fixture.ports Fixture.web [] "80/tcp"
    [ {| PortBinding.HostIP := "0.0.0.0"; PortBinding.HostPort := "8080" |} ] []
    eq_refl) as (Hports & Hexposed & _).
  split.
  - exact Hports.
  - apply Hexposed. discriminate.
Defined.

Example published_ports_two_bindings :
  let v4 := {| PortBinding.HostIP := "0.0.0.0"; PortBinding.HostPort := "8080" |} in
  let v6 := {| PortBinding.HostIP := "::"; PortBinding.HostPort := "8080" |} in
  @getServiceBindingsPorts Fixture.ports
    (Fixture.container "/web" "nginx" None ["80/tcp"; "443/tcp"; "53/udp"]
       [("80/tcp", [v4; v6]); ("443/tcp", [])] [])
  = ([ {| ServicePortConfig.HostIP := "0.0.0.0"; ServicePortConfig.Published := "8080";
          ServicePortConfig.Target := 80 |};
       {| ServicePortConfig.HostIP := "::"; ServicePortConfig.Published := "8080";
          ServicePortConfig.Target := 80 |} ],
     ["443"; "53"]).
Proof. reflexivity. Qed.

(** ** The monad of the run *)

Section MonadFacts.
Context {E : Type}.

Lemma M_bind_inr {A B} (k : A → M E B) (t : list event) (a : A) :
  ((t, inr a) : M E A) ≫= k = (t ++ (k a).1, (k a).2).
Proof. done. Qed.

Lemma M_bind_inl {A B} (k : A → M E B) (t : list event) (e : E) :
  ((t, inl e) : M E A) ≫= k = (t, inl e).
Proof. done. Qed.

Lemma M_bind_ret {A B} (k : A → M E B) (a : A) : mret a ≫= k = k a.
Proof. unfold mret, M_ret. rewrite M_bind_inr. by destruct (k a). Qed.

(** A loop whose body cannot fail and only appends to its accumulator
    prints and appends the same whatever it starts from. *)
Lemma forM_appends {A B} (P : event → Prop)
    (body : list A → B → M E (list A)) (xs : list B) :
  (∀ x, ∃ w m, Forall P w ∧ ∀ acc, body acc x = (w, inr (acc ++ m))) →
  ∃ w m, Forall P w ∧ ∀ acc, forM body acc xs = (w, inr (acc ++ m)).
Proof.
  intros Hbody. induction xs as [|x xs (w2 & m2 & HP2 & IH)]; simpl.
  - exists [], []. split; [done|]. intros acc. by rewrite app_nil_r.
  - destruct (Hbody x) as (w1 & m1 & HP1 & Hx).
    exists (w1 ++ w2), (m1 ++ m2). split; [by apply Forall_app|]. intros acc.
    rewrite Hx, M_bind_inr, IH. simpl. by rewrite app_assoc.
Qed.

Lemma M_bind_assoc {A B C} (m : M E A) (f : A → M E B) (g : B → M E C) :
  (m ≫= f) ≫= g = m ≫= (λ a, f a ≫= g).
Proof.
  destruct m as [t [e|a]]; [done|]. unfold mbind, M_bind. simpl.
  destruct (f a) as [t' [e'|b]]; simpl; [done|].
  by rewrite app_assoc.
Qed.

Lemma forM_app {A B} (body : A → B → M E A) (xs ys : list B) (acc : A) :
  forM body acc (xs ++ ys) = forM body acc xs ≫= λ acc', forM body acc' ys.
Proof.
  revert acc. induction xs as [|x xs IH]; intros acc; simpl.
  - unfold mbind, M_bind. simpl. by destruct (forM body acc ys).
  - destruct (body acc x) as [t [e|a]]; [done|].
    rewrite !M_bind_inr, IH. unfold mbind, M_bind.
    destruct (forM body a xs) as [t' [e'|a']]; simpl; [done|].
    by rewrite app_assoc.
Qed.

End MonadFacts.

(** ** Mount mapper *)

Section MountFacts.
Context {E : Type}.

(** The loop body never fails, and what it prints and appends does not
    depend on the mounts collected so far. *)
Lemma bindMount_appends (bString : string) :
  ∃ w m, Forall is_warning w
         ∧ ∀ mounts, bindMount (E:=E) mounts bString = (w, inr (mounts ++ m)).
Proof.
  unfold bindMount.
  destruct (GoStrings.Split bString ":") as [|source [|target rest]] eqn:Hs.
  - exists [BindWarning bString], []. split; [by repeat constructor|].
    intros mounts. by rewrite app_nil_r.
  - exists [BindWarning bString], []. split; [by repeat constructor|].
    intros mounts. by rewrite app_nil_r.
  - eexists [], _. split; [done|]. intros mounts. reflexivity.
Qed.

Lemma legacyBinds_warnings (Binds : list string) :
  ∃ w m, Forall is_warning w
         ∧ ∀ mounts, forM (E:=E) bindMount mounts Binds = (w, inr (mounts ++ m)).
Proof. apply forM_appends, bindMount_appends. Qed.

Lemma legacyBinds_total (Binds : list string) :
  ∃ w m, ∀ mounts, forM (E:=E) bindMount mounts Binds = (w, inr (mounts ++ m)).
Proof. destruct (legacyBinds_warnings Binds) as (w & m & _ & H). eauto. Qed.

Lemma getServiceMounts_total (c : ContainerJSON.t) :
  ∃ w volumes, Forall is_warning w ∧ getServiceMounts (E:=E) c = (w, inr volumes).
Proof.
  unfold getServiceMounts, legacyBinds.
  destruct (legacyBinds_warnings (HostConfig.Binds (ContainerJSON.HostConfig c)))
    as (w & m & Hw & H).
  rewrite H. eexists w, _. split; [done|].
  unfold mbind, M_bind, mret, M_ret. simpl. by rewrite app_nil_r.
Qed.

Lemma structMounts_foldl (Mounts : list Mount.t) (mounts : list ServiceVolumeConfig.t) :
  foldl (λ mounts m, mounts ++ [structMount m]) mounts Mounts
  = mounts ++ (structMount <$> Mounts).
Proof.
  revert mounts. induction Mounts as [|m ms IH]; intros mounts; simpl.
  - by rewrite app_nil_r.
  - by rewrite IH, <- app_assoc.
Qed.

(** The mounts of a container, from the mounts of three parts of its list
    of legacy binds. *)
Lemma getServiceMounts_split c pre bString post w1 m1 w m w2 m2 :
  HostConfig.Binds (ContainerJSON.HostConfig c) = pre ++ bString :: post →
  legacyBinds (E:=E) pre = (w1, inr m1) →
  legacyBinds (E:=E) [bString] = (w, inr m) →
  legacyBinds (E:=E) post = (w2, inr m2) →
  getServiceMounts (E:=E) c
  = (w1 ++ w ++ w2,
     inr (m1 ++ m ++ m2
          ++ (structMount <$> HostConfig.Mounts (ContainerJSON.HostConfig c)))).
Proof.
  unfold getServiceMounts, legacyBinds. intros -> H1 H H2.
  destruct (legacyBinds_total pre) as (w1' & m1' & Hpre).
  destruct (legacyBinds_total [bString]) as (w' & m' & Hb).
  destruct (legacyBinds_total post) as (w2' & m2' & Hpost).
  rewrite Hpre in H1. rewrite Hb in H. rewrite Hpost in H2.
  injection H1 as <- <-. injection H as <- <-. injection H2 as <- <-.
  rewrite forM_app, Hpre, M_bind_inr.
  change (bString :: post) with ([bString] ++ post).
  rewrite forM_app, Hb, M_bind_inr, Hpost.
  unfold mbind, M_bind, mret, M_ret. simpl. rewrite structMounts_foldl.
  by rewrite app_nil_r, <- !app_assoc.
Qed.

Lemma bindMount_short mounts bString :
  (length (GoStrings.Split bString ":") < 2)%nat →
  bindMount (E:=E) mounts bString = ([BindWarning bString], inr mounts).
Proof.
  unfold bindMount.
  destruct (GoStrings.Split bString ":") as [|source [|target rest]]; simpl;
    [done|done|lia].
Qed.

Lemma bindMount_fields mounts bString source target rest :
  GoStrings.Split bString ":" = source :: target :: rest →
  bindMount (E:=E) mounts bString
  = ([], inr (mounts ++ [legacyBind source target
                           (if decide (rest = ["rw"]) then false else true)])).
Proof.
  unfold bindMount. intros ->. unfold mret, M_ret, legacyBind.
  assert ((length (source :: target :: rest) = 3%nat
           ∧ (source :: target :: rest) !! 2%nat = Some "rw") ↔ rest = ["rw"]) as Hiff.
  { destruct rest as [|mode [|fourth rest]]; simpl.
    - split; [by intros [? _]|done].
    - split; [by intros [_ [= ->]]|by intros [= ->]].
    - split; [by intros [? _]|done]. }
  destruct (decide (rest = ["rw"])) as [Hrw|Hrw].
  - by rewrite decide_True by (by apply Hiff).
  - by rewrite decide_False by (by rewrite Hiff).
Qed.

Lemma legacyBinds_one bString :
  legacyBinds (E:=E) [bString] = bindMount [] bString.
Proof.
  unfold legacyBinds. simpl. destruct (bindMount_appends bString) as (w & m & _ & H).
  rewrite H. unfold mbind, M_bind, mret, M_ret. simpl. by rewrite app_nil_r.
Qed.

(** A string without [':'] is one field, hence skipped with a warning. *)
Lemma bindMount_no_colon mounts bString :
  GoStrings.Contains bString ":" = false →
  bindMount (E:=E) mounts bString = ([BindWarning bString], inr mounts).
Proof.
  intros Hc. apply bindMount_short. rewrite (Split_no_sep _ _ Hc). simpl. lia.
Qed.

(** C3: in a batch of legacy bind strings the entry [bString] is handled on
    its own, between the entries before and after it, which are processed
    as they would be without it. Fewer than two fields: a warning and no
    mount. Exactly two fields: a bind mount from the first to the second,
    read-only. Three fields: the same, and read-only unless the third field
    is [rw]. *)
Theorem legacy_bind_cases c pre bString post :
  HostConfig.Binds (ContainerJSON.HostConfig c) = pre ++ bString :: post →
  ∃ w1 m1 w m w2 m2,
    legacyBinds (E:=E) pre = (w1, inr m1)
    ∧ legacyBinds (E:=E) [bString] = (w, inr m)
    ∧ legacyBinds (E:=E) post = (w2, inr m2)
    ∧ getServiceMounts (E:=E) c
      = (w1 ++ w ++ w2,
         inr (m1 ++ m ++ m2
              ++ (structMount <$> HostConfig.Mounts (ContainerJSON.HostConfig c))))
    ∧ ((length (GoStrings.Split bString ":") < 2)%nat →
       w = [BindWarning bString] ∧ m = [])
    ∧ (∀ source target, GoStrings.Split bString ":" = [source; target] →
       w = [] ∧ m = [legacyBind source target true])
    ∧ (∀ source target, GoStrings.Split bString ":" = [source; target; "rw"] →
       w = [] ∧ m = [legacyBind source target false])
    ∧ (∀ source target mode, GoStrings.Split bString ":" = [source; target; mode] →
       mode ≠ "rw" →
       w = [] ∧ m = [legacyBind source target true]).
Proof.
  intros Hc.
  destruct (legacyBinds_total pre) as (w1 & m1 & Hpre).
  destruct (legacyBinds_total [bString]) as (w & m & Hb).
  destruct (legacyBinds_total post) as (w2 & m2 & Hpost).
  exists w1, m1, w, m, w2, m2.
  assert (Hone : bindMount (E:=E) [] bString = (w, inr m)).
  { rewrite <- legacyBinds_one. apply (Hb []). }
  split_and!; [exact (Hpre [])|exact (Hb [])|exact (Hpost [])|..].
  - exact (getServiceMounts_split c pre bString post _ _ _ _ _ _
             Hc (Hpre []) (Hb []) (Hpost [])).
  - intros Hlen. rewrite (bindMount_short [] bString Hlen) in Hone.
    by injection Hone as <- <-.
  - intros source target Hs. rewrite (bindMount_fields [] _ _ _ _ Hs) in Hone.
    by injection Hone as <- <-.
  - intros source target Hs. rewrite (bindMount_fields [] _ _ _ _ Hs) in Hone.
    by injection Hone as <- <-.
  - intros source target mode Hs Hmode.
    rewrite (bindMount_fields [] _ _ _ _ Hs) in Hone.
    rewrite decide_False in Hone by (intros [= ?]; done).
    by injection Hone as <- <-.
Qed.

(** C10: when the split yields four or more fields the entry still gives a
    bind mount from the first field to the second, and the mount is
    read-only whatever the third field is, [rw] included. *)
Theorem legacy_bind_four_fields mounts bString source target third fourth rest :
  GoStrings.Split bString ":" = source :: target :: third :: fourth :: rest →
  bindMount (E:=E) mounts bString
    = ([], inr (mounts ++ [legacyBind source target true]))
  ∧ legacyBinds (E:=E) [bString] = ([], inr [legacyBind source target true]).
Proof.
  intros Hs. rewrite legacyBinds_one, !(bindMount_fields _ _ _ _ _ Hs).
  by rewrite decide_False by (intros [= ?]; done).
Qed.

End MountFacts.

Lemma legacy_bind_cases_witness :
  getServiceMounts (E:=string)
    (Fixture.container "/c" "img" None [] []
       ["/host:/container"; "/host"; "/data:/data:rw"; "/etc:/etc:ro"])
  = ([BindWarning "/host"],
     inr [legacyBind "/host" "/container" true;
          legacyBind "/data" "/data" false;
          legacyBind "/etc" "/etc" true]).
Proof.
  destruct (legacy_bind_cases (E:=string)
    (Fixture.container "/c" "img" None [] []
       ["/host:/container"; "/host"; "/data:/data:rw"; "/etc:/etc:ro"])
    ["/host:/container"] "/host" ["/data:/data:rw"; "/etc:/etc:ro"] eq_refl)
    as (w1 & m1 & w & m & w2 & m2 & H1 & _ & H2 & Hall & Hshort & _).
  destruct Hshort as [-> ->]; [vm_compute; lia|].
  injection H1 as <- <-. injection H2 as <- <-. exact Hall.
Defined.

Lemma legacy_bind_four_fields_witness :
  legacyBinds (E:=string) ["/a:/b:rw:z"] = ([], inr [legacyBind "/a" "/b" true]).
Proof.
  apply (proj2 (legacy_bind_four_fields (E:=string) [] "/a:/b:rw:z" "/a" "/b" "rw" "z" []
                  eq_refl)).
Defined.

Example legacy_bind_examples :
  legacyBinds (E:=string) ["/host:/container"]
    = ([], inr [legacyBind "/host" "/container" true])
  ∧ legacyBinds (E:=string) ["/host:/container:rw"]
    = ([], inr [legacyBind "/host" "/container" false])
  ∧ legacyBinds (E:=string) ["/host"] = ([BindWarning "/host"], inr []).
Proof. by vm_compute. Qed.

(** ** The service mapping *)

Section CollectFacts.
Implicit Types (services : gmap string ServiceConfig.t).
Implicit Types (svcs : list ServiceConfig.t) (svc : ServiceConfig.t).

Lemma collect_app services svcs1 svcs2 :
  collect services (svcs1 ++ svcs2) = collect (collect services svcs1) svcs2.
Proof. apply foldl_app. Qed.

Lemma collect_lookup_other services svcs (n : string) :
  (∀ svc, svc ∈ svcs → ServiceConfig.Name svc ≠ n) →
  collect services svcs !! n = services !! n.
Proof.
  revert services. induction svcs as [|svc svcs IH]; intros services Hn; [done|].
  simpl. rewrite IH by (intros svc' ?; apply Hn; by right).
  apply lookup_insert_ne, Hn. left.
Qed.

Lemma collect_lookup_last services svcs1 svc svcs2 :
  (∀ svc', svc' ∈ svcs2 → ServiceConfig.Name svc' ≠ ServiceConfig.Name svc) →
  collect services (svcs1 ++ svc :: svcs2) !! ServiceConfig.Name svc = Some svc.
Proof.
  intros Hlast. rewrite collect_app. simpl.
  rewrite collect_lookup_other by done. apply lookup_insert_eq.
Qed.

Lemma collect_dom services svcs :
  dom (collect services svcs)
  = dom services ∪ list_to_set (ServiceConfig.Name <$> svcs).
Proof.
  revert services. induction svcs as [|svc svcs IH]; intros services; simpl.
  - by rewrite (right_id_L ∅ (∪)).
  - rewrite IH, dom_insert_L.
    by rewrite (comm_L (∪) {[_]} (dom services)), (assoc_L (∪)).
Qed.

Lemma collect_lookup_Some services svcs (n : string) svc :
  collect services svcs !! n = Some svc →
  services !! n = Some svc ∨ (ServiceConfig.Name svc = n ∧ svc ∈ svcs).
Proof.
  revert services. induction svcs as [|svc' svcs IH]; intros services; simpl.
  - by left.
  - intros [Hin|[? ?]]%IH.
    + apply lookup_insert_Some in Hin as [[<- <-]|[_ ?]].
      * right. split; [done|left].
      * by left.
    + right. split; [done|by right].
Qed.

Lemma collect_size svcs :
  size (collect ∅ svcs) = length (remove_dups (ServiceConfig.Name <$> svcs)).
Proof.
  rewrite <- size_dom, collect_dom, dom_empty_L, (left_id_L ∅ (∪)).
  rewrite <- (size_list_to_set (C:=gset string) (remove_dups _))
    by apply NoDup_remove_dups.
  f_equal. apply set_eq. intros n.
  by rewrite !elem_of_list_to_set, elem_of_remove_dups.
Qed.

End CollectFacts.

Lemma synthetic_names_distinct (i j : nat) :
  "service-" +:+ Sprintf_d (Z.of_nat i) = "service-" +:+ Sprintf_d (Z.of_nat j) → i = j.
Proof.
  unfold Sprintf_d. intros Heq. apply (inj (String.app "service-")) in Heq.
  apply (inj pretty) in Heq. lia.
Qed.

(** ** Service assembly *)

Section RunFacts.
Context `{!PortMethods} `{!World}.

(** The service of one container: the assembly cannot fail, prints the
    warnings of the mount mapper only, and fills every field from its
    mapper. *)
Lemma assemble_unfold (c : ContainerJSON.t) (i : nat) :
  ∃ w volumes,
    Forall is_warning w
    ∧ getServiceMounts (E:=error) c = (w, inr volumes)
    ∧ assemble c i
      = (w, inr {| ServiceConfig.Name := getServiceName c (Z.of_nat i);
                   ServiceConfig.Image := getServiceImage c;
                   ServiceConfig.Environment := getServiceEnv c;
                   ServiceConfig.Expose := (getServiceBindingsPorts c).2;
                   ServiceConfig.Entrypoint := getServiceEntrypoint c;
                   ServiceConfig.Ports := (getServiceBindingsPorts c).1;
                   ServiceConfig.Volumes := volumes;
                   ServiceConfig.Command :=
                     if decide (0 < len (getServiceCmd c))%nat
                     then getServiceCmd c else None |}).
Proof.
  destruct (getServiceMounts_total (E:=error) c) as (w & volumes & Hw & Hm).
  exists w, volumes. split_and!; [done..|].
  unfold assemble. destruct (getServiceBindingsPorts c) as [ports expose].
  rewrite Hm. unfold mbind, M_bind, mret, M_ret. simpl.
  rewrite app_nil_r. by case_decide.
Qed.

(** C4: the assembled service has a command exactly when the command list
    of the container is not empty, and the command is then that list; for
    an empty list, nil or not, the field keeps its zero value. *)
Theorem command_present_iff_nonempty (c : ContainerJSON.t) (i : nat) :
  ∃ w service,
    assemble c i = (w, inr service)
    ∧ (ServiceConfig.Command service ≠ None
       ↔ (0 < len (Config.Cmd (ContainerJSON.Config c)))%nat)
    ∧ ((0 < len (Config.Cmd (ContainerJSON.Config c)))%nat →
       ServiceConfig.Command service = Config.Cmd (ContainerJSON.Config c))
    ∧ (len (Config.Cmd (ContainerJSON.Config c)) = 0%nat →
       ServiceConfig.Command service = None).
Proof.
  destruct (assemble_unfold c i) as (w & volumes & _ & _ & Ha).
  eexists w, _. split; [exact Ha|]. simpl. unfold getServiceCmd.
  destruct (Config.Cmd (ContainerJSON.Config c)) as [[|x cmd]|]; simpl.
  - split_and!; [|lia|done]. split; [done|lia].
  - split_and!; [|done|done]. split; [lia|done].
  - split_and!; [|lia|done]. split; [done|lia].
Qed.

(** ** The run *)

Lemma getWorkingDir_total (opts : generateOptions.t) :
  ∃ w workingDir, Forall is_warning w ∧ getWorkingDir opts = (w, inr workingDir).
Proof.
  unfold getWorkingDir. case_decide.
  - by eexists [], _.
  - destruct Getwd as [err|dir].
    + eexists [GetwdWarning (Error err)], _. split; [by repeat constructor|done].
    + by eexists [], _.
Qed.

(** While the engine answers, the loop prints warnings only and writes the
    services, in order, into the mapping. *)
Lemma inspectAll_ok args : ∀ i cs,
  answers i args cs →
  ∃ w svcs,
    Forall is_warning w
    ∧ services_of i cs svcs
    ∧ ∀ services, inspectAll i args services = (w, inr (collect services svcs)).
Proof.
  induction args as [|arg args IH]; intros i [|c cs] Hans; try done.
  - by exists [], [].
  - destruct Hans as [Hc Hans].
    destruct (IH _ _ Hans) as (w2 & svcs & Hw2 & Hsvcs & Hrest).
    destruct (assemble_unfold c i) as (w1 & volumes & Hw1 & _ & Ha).
    eexists (w1 ++ w2), (_ :: svcs). split_and!.
    + by apply Forall_app.
    + split; [eexists; exact Ha|done].
    + intros services. simpl. rewrite Hc, Ha, M_bind_inr, Hrest. done.
Qed.

(** When the engine fails on [arg] after it answered for [pre], the loop
    stops there: the failure is printed and returned, whatever follows. *)
Lemma inspectAll_fail pre : ∀ i cs arg err,
  answers i pre cs →
  ContainerInspect (i + length pre) arg = inl err →
  ∃ w, Forall is_warning w
       ∧ ∀ post services,
           inspectAll i (pre ++ arg :: post) services
           = (w ++ [InspectFailed (Error err)], inl err).
Proof.
  induction pre as [|a pre IH]; intros i [|c cs] arg err Hans Herr; try done.
  - exists []. split; [done|]. intros post services. simpl in *.
    rewrite Nat.add_0_r in Herr. by rewrite Herr.
  - destruct Hans as [Hc Hans].
    simpl in Herr. rewrite <- Nat.add_succ_comm in Herr.
    destruct (IH _ _ _ _ Hans Herr) as (w2 & Hw2 & Hrest).
    destruct (assemble_unfold c i) as (w1 & volumes & Hw1 & _ & Ha).
    exists (w1 ++ w2). split; [by apply Forall_app|].
    intros post services. simpl. rewrite Hc, Ha, M_bind_inr, Hrest.
    simpl. by rewrite app_assoc.
Qed.

Lemma warning_not_Document w yaml : Forall is_warning w → Document yaml ∉ w.
Proof.
  intros Hw Hin. rewrite Forall_forall in Hw. by apply Hw in Hin.
Qed.

(** C5: when the engine fails on an identifier after it answered for the
    ones before, the run returns that very error; it printed the opening
    line, the warnings met so far and the failure, and no document; the
    identifiers after the failing one play no part. *)
Theorem inspect_failure_aborts opts pre cs arg post err :
  answers 0 pre cs →
  ContainerInspect (length pre) arg = inl err →
  (runGenerate opts (pre ++ arg :: post)).2 = inl err
  ∧ (∀ yaml, Document yaml ∉ (runGenerate opts (pre ++ arg :: post)).1)
  ∧ (∃ w, Forall is_warning w
          ∧ (runGenerate opts (pre ++ arg :: post)).1
            = Experimental :: w ++ [InspectFailed (Error err)])
  ∧ runGenerate opts (pre ++ arg :: post) = runGenerate opts (pre ++ [arg]).
Proof.
  intros Hans Herr.
  destruct (inspectAll_fail pre 0 cs arg err Hans Herr) as (w2 & Hw2 & Hfail).
  destruct (getWorkingDir_total opts) as (w1 & dir & Hw1 & Hwd).
  assert (∀ post, runGenerate opts (pre ++ arg :: post)
                  = (Experimental :: (w1 ++ w2) ++ [InspectFailed (Error err)], inl err))
    as Hrun.
  { intros post'. unfold runGenerate, project. rewrite Hwd, Hfail.
    unfold mbind, M_bind, print. simpl. by rewrite !app_assoc. }
  rewrite !Hrun. simpl. split_and!; [done| |by eauto using Forall_app_2|done].
  intros yaml [?|Hin]%elem_of_cons; [done|].
  apply elem_of_app in Hin as [Hin|Hin].
  - by apply warning_not_Document in Hin; [|apply Forall_app].
  - apply list_elem_of_singleton in Hin. done.
Qed.

(** C7: when the encoder fails on the project, the run prints the failure
    and then the document with whatever bytes the encoder returned, and
    returns no error. *)
Theorem marshal_failure_not_fatal opts args w p err :
  project opts args = (w, inr p) →
  (MarshalYAML p).2 = Some err →
  runGenerate opts args
  = (w ++ [MarshalFailed (Error err); Document (MarshalYAML p).1], inr tt).
Proof.
  intros Hp Herr. unfold runGenerate. rewrite Hp, M_bind_inr. simpl.
  rewrite Herr. done.
Qed.

Lemma project_ok opts args cs :
  answers 0 args cs →
  ∃ w workingDir svcs,
    services_of 0 cs svcs
    ∧ project opts args
      = (w, inr {| Project.Name := getName opts;
                   Project.WorkingDir := workingDir;
                   Project.Services := collect ∅ svcs |}).
Proof.
  intros Hans.
  destruct (inspectAll_ok args 0 cs Hans) as (w2 & svcs & _ & Hsvcs & Hall).
  destruct (getWorkingDir_total opts) as (w1 & dir & _ & Hwd).
  eexists _, dir, svcs. split; [done|].
  unfold project. rewrite Hwd, Hall. reflexivity.
Qed.

Lemma services_of_names cs : ∀ i svcs,
  services_of i cs svcs →
  ServiceConfig.Name <$> svcs
  = imap (λ j c, getServiceName c (Z.of_nat (i + j))) cs.
Proof.
  induction cs as [|c cs IH]; intros i [|svc svcs] Hs; try done.
  destruct Hs as [[w Ha] Hs]. rewrite imap_cons, fmap_cons. f_equal.
  - destruct (assemble_unfold c i) as (w' & volumes & _ & _ & Ha').
    rewrite Ha' in Ha. injection Ha as _ <-. simpl. by rewrite Nat.add_0_r.
  - rewrite (IH _ _ Hs). apply imap_ext. intros j c' _. simpl.
    by rewrite Nat.add_succ_r.
Qed.

(** C6, amended: in the project of a run whose inspect calls succeed, the
    names of the service mapping are the names derived for the containers,
    with one entry for each distinct name; every entry holds a service of
    that name; when several containers derive the same name the mapping
    holds the service of the last of them; and two names synthesized from
    the position, for two containers without display name, differ when the
    positions differ. *)
Theorem service_names_last_write_wins opts args cs :
  answers 0 args cs →
  ∃ w p svcs,
    project opts args = (w, inr p)
    ∧ services_of 0 cs svcs
    ∧ ServiceConfig.Name <$> svcs = imap (λ i c, getServiceName c (Z.of_nat i)) cs
    ∧ (∀ n, n ∈ dom (Project.Services p) ↔ n ∈ ServiceConfig.Name <$> svcs)
    ∧ size (Project.Services p) = length (remove_dups (ServiceConfig.Name <$> svcs))
    ∧ (∀ n svc, Project.Services p !! n = Some svc →
         ServiceConfig.Name svc = n ∧ svc ∈ svcs)
    ∧ (∀ svcs1 svc svcs2,
         svcs = svcs1 ++ svc :: svcs2 →
         (∀ svc', svc' ∈ svcs2 → ServiceConfig.Name svc' ≠ ServiceConfig.Name svc) →
         Project.Services p !! ServiceConfig.Name svc = Some svc)
    ∧ (∀ i j c1 c2,
         cs !! i = Some c1 → cs !! j = Some c2 →
         ContainerJSON.Name c1 = "" → ContainerJSON.Name c2 = "" →
         getServiceName c1 (Z.of_nat i) = getServiceName c2 (Z.of_nat j) → i = j).
Proof.
  intros Hans. destruct (project_ok opts args cs Hans) as (w & dir & svcs & Hsvcs & Hp).
  eexists w, _, svcs. split; [exact Hp|]. simpl. split_and!.
  - done.
  - by rewrite (services_of_names _ _ _ Hsvcs).
  - intros n. rewrite collect_dom, dom_empty_L, (left_id_L ∅ (∪)).
    apply elem_of_list_to_set.
  - apply collect_size.
  - intros n svc Hn. apply collect_lookup_Some in Hn as [Hn|?]; [|done].
    by rewrite lookup_empty in Hn.
  - intros svcs1 svc svcs2 -> Hlast. by apply collect_lookup_last.
  - intros i j c1 c2 _ _ Hn1 Hn2. unfold getServiceName.
    rewrite Hn1, Hn2. simpl. apply synthetic_names_distinct.
Qed.


End RunFacts.

Lemma command_present_iff_nonempty_witness :
  ∃ w service,
    @assemble Fixture.ports (Fixture.world [] Fixture.names) Fixture.unnamed 1
    = (w, inr service)
    ∧ ServiceConfig.Command service = Some ["sh"; "-c"; "run"].
Proof.
  destruct (@command_present_iff_nonempty Fixture.ports
              (Fixture.world [] Fixture.names) Fixture.unnamed 1)
    as (w & service & Ha & _ & Hcmd & _).
  exists w, service. split; [exact Ha|].
  apply Hcmd. vm_compute. lia.
Defined.

Lemma inspect_failure_aborts_witness :
  @runGenerate Fixture.ports (Fixture.world [("a", Fixture.web)] Fixture.names)
    Fixture.opts ["a"; "ghost"; "a"]
  = ([Experimental; InspectFailed "No such container: ghost"],
     inl "No such container: ghost").
Proof.
  destruct (@inspect_failure_aborts Fixture.ports
              (Fixture.world [("a", Fixture.web)] Fixture.names)
              Fixture.opts ["a"] [Fixture.web] "ghost" ["a"] "No such container: ghost")
    as (Herr & _ & _ & Hsame).
  - simpl. split; reflexivity.
  - reflexivity.
  - etrans; [exact Hsame|reflexivity].
Defined.

Lemma marshal_failure_not_fatal_witness :
  @runGenerate Fixture.ports (Fixture.world [("a", Fixture.unnamed)] Fixture.broken)
    Fixture.opts ["a"]
  = ([Experimental; MarshalFailed "yaml: cannot marshal"; Document ""], inr tt).
Proof.
  epose proof (@marshal_failure_not_fatal Fixture.ports
           (Fixture.world [("a", Fixture.unnamed)] Fixture.broken)
           Fixture.opts ["a"] [Experimental] _ "yaml: cannot marshal"
           eq_refl eq_refl) as Hrun.
  exact Hrun.
Defined.

(** C6, as the specification words it, fails: the name synthesized for the
    container at position 1 is the name that the engine supplied for the
    container at position 0, and the mapping keeps one service for the two
    containers, the one of the second. *)
Lemma synthetic_name_collision_counterexample :
  let named := Fixture.container "/service-1" "nginx" None [] [] [] in
  let unnamed := Fixture.container "" "busybox" None [] [] [] in
  ContainerJSON.Name named ≠ ""
  ∧ ContainerJSON.Name unnamed = ""
  ∧ getServiceName unnamed 1 = getServiceName named 0
  ∧ ∃ w p,
      @project Fixture.ports (Fixture.world [("a", named); ("b", unnamed)] Fixture.names)
        Fixture.opts ["a"; "b"] = (w, inr p)
      ∧ size (Project.Services p) = 1%nat
      ∧ ServiceConfig.Image <$> Project.Services p !! "service-1" = Some "busybox".
Proof.
  split_and!; [done..|]. eexists _, _. split; [reflexivity|]. by vm_compute.
Qed.

Lemma service_names_last_write_wins_witness :
  ∃ w p,
    @project Fixture.ports
      (Fixture.world [("a", Fixture.web); ("b", Fixture.unnamed)] Fixture.names)
      Fixture.opts ["a"; "b"] = (w, inr p)
    ∧ size (Project.Services p) = 2%nat.
Proof.
  destruct (@service_names_last_write_wins Fixture.ports
              (Fixture.world [("a", Fixture.web); ("b", Fixture.unnamed)] Fixture.names)
              Fixture.opts ["a"; "b"] [Fixture.web; Fixture.unnamed])
    as (w & p & svcs & Hp & _ & Hnames & _ & Hsize & _).
  - simpl. repeat split; reflexivity.
  - exists w, p. split; [exact Hp|]. rewrite Hsize, Hnames. reflexivity.
Defined.

(** ** Two runs on the same input *)


Section TwoRuns.
Context `{!PortMethods} (W : World).
Context (inspect : nat → string → @error W + ContainerJSON.t).



End TwoRuns.



(** ** Environment mapper *)

Section EnvFacts.
Import MappingWithEquals.
Implicit Types (mapping : MappingWithEquals.t) (key : string) (value : option string).

Lemma cut_bare (env : string) :
  GoStrings.Contains env "=" = false → cut env = (env, None).
Proof.
  induction env as [|c env IH]; simpl; [done|].
  case_decide; [done|]. intros Hc. by rewrite (IH Hc).
Qed.

Lemma cut_assigned (key v : string) :
  GoStrings.Contains key "=" = false →
  cut (key +:+ String "=" v) = (key, Some v).
Proof.
  induction key as [|c key IH]; simpl; [done|].
  case_decide; [done|]. intros Hc. by rewrite (IH Hc).
Qed.

Lemma get_assign_eq key value mapping : get key (assign key value mapping) = Some value.
Proof.
  induction mapping as [|[k v] mapping IH]; simpl.
  - by rewrite decide_True.
  - case_decide; simpl; [by rewrite decide_True|by rewrite decide_False].
Qed.

Lemma get_assign_ne key key' value mapping :
  key ≠ key' → get key' (assign key value mapping) = get key' mapping.
Proof.
  intros Hne. induction mapping as [|[k v] mapping IH]; simpl.
  - by rewrite decide_False.
  - case_decide as Hk; simpl.
    + subst k. by rewrite !decide_False.
    + by rewrite IH.
Qed.

Lemma get_None key mapping : get key mapping = None ↔ key ∉ mapping.*1.
Proof.
  induction mapping as [|[k v] mapping IH]; simpl.
  - split; [intros _; apply not_elem_of_nil|done].
  - rewrite not_elem_of_cons. case_decide; [|rewrite IH]; intuition congruence.
Qed.

Lemma assign_fresh key value mapping :
  key ∉ mapping.*1 → assign key value mapping = mapping ++ [(key, value)].
Proof.
  induction mapping as [|[k v] mapping IH]; simpl; [done|].
  intros [Hne Hnotin]%not_elem_of_cons. rewrite decide_False by done.
  by rewrite IH.
Qed.

Lemma assign_present key value mapping :
  key ∈ mapping.*1 → (assign key value mapping).*1 = mapping.*1.
Proof.
  induction mapping as [|[k v] mapping IH]; simpl.
  - by intros ?%elem_of_nil.
  - intros Hin. case_decide as Hk; simpl; [by subst|].
    f_equal. apply IH. apply elem_of_cons in Hin as [?|?]; [congruence|done].
Qed.

Lemma assign_keys key value mapping :
  (assign key value mapping).*1
  = if decide (key ∈ mapping.*1) then mapping.*1 else mapping.*1 ++ [key].
Proof.
  case_decide.
  - by apply assign_present.
  - rewrite assign_fresh by done. by rewrite fmap_app.
Qed.

Lemma NewMappingWithEquals_snoc (values : list string) (env : string) :
  NewMappingWithEquals (values ++ [env])
  = assign (cut env).1 (cut env).2 (NewMappingWithEquals values).
Proof. unfold NewMappingWithEquals. by rewrite foldl_snoc. Qed.

Lemma NewMappingWithEquals_NoDup (values : list string) :
  NoDup (NewMappingWithEquals values).*1.
Proof.
  induction values as [|env values IH] using rev_ind; [constructor|].
  rewrite NewMappingWithEquals_snoc, assign_keys. case_decide; [done|].
  apply NoDup_app. split_and!; [done| |apply NoDup_singleton].
  intros k Hk ->%list_elem_of_singleton. done.
Qed.

Lemma NewMappingWithEquals_last (pre post : list string) (env : string) :
  (∀ e, e ∈ post → (cut e).1 ≠ (cut env).1) →
  get (cut env).1 (NewMappingWithEquals (pre ++ env :: post)) = Some (cut env).2.
Proof.
  induction post as [|e post IH] using rev_ind; intros Hpost.
  - rewrite NewMappingWithEquals_snoc. apply get_assign_eq.
  - rewrite app_comm_cons, app_assoc, NewMappingWithEquals_snoc.
    rewrite get_assign_ne by (apply Hpost, elem_of_app; right; left).
    apply IH. intros e' He'. apply Hpost, elem_of_app. by left.
Qed.

Lemma NewMappingWithEquals_keys (values : list string) :
  ∀ key, key ∈ (NewMappingWithEquals values).*1 ↔ key ∈ (cut <$> values).*1.
Proof.
  induction values as [|env values IH] using rev_ind; intros key; [done|].
  rewrite NewMappingWithEquals_snoc, assign_keys, !fmap_app, elem_of_app.
  simpl. rewrite list_elem_of_singleton, <- IH.
  case_decide; [|rewrite elem_of_app, list_elem_of_singleton]; intuition congruence.
Qed.

Lemma NewMappingWithEquals_distinct (values : list string) :
  NoDup (cut <$> values).*1 → NewMappingWithEquals values = cut <$> values.
Proof.
  induction values as [|env values IH] using rev_ind; [done|].
  rewrite !fmap_app. intros [Hnd [Hfresh _]]%NoDup_app.
  rewrite NewMappingWithEquals_snoc, assign_fresh.
  - rewrite IH by done. simpl. by destruct (cut env).
  - intros Hin%NewMappingWithEquals_keys. apply (Hfresh _ Hin). simpl. left.
Qed.

End EnvFacts.

(** C8: the environment of a service is a mapping with distinct keys. For
    the last entry of a key, a bare [KEY] leaves the key with no value
    assigned and [KEY=VALUE] assigns the text after the first ['='],
    whatever it is, the empty text and texts with further ['='] included;
    earlier entries of that key are overridden. The keys keep the order of
    the input: a key not seen before is appended, a key seen before keeps
    its place, and a list whose keys are distinct is mapped entry by
    entry. *)
Theorem environment_mapping (c : ContainerJSON.t) :
  let values := Config.Env (ContainerJSON.Config c) in
  NoDup (getServiceEnv c).*1
  ∧ (∀ pre key post,
       values = pre ++ key :: post →
       GoStrings.Contains key "=" = false →
       (∀ e, e ∈ post → (MappingWithEquals.cut e).1 ≠ key) →
       MappingWithEquals.get key (getServiceEnv c) = Some None)
  ∧ (∀ pre key value post,
       values = pre ++ (key +:+ String "=" value) :: post →
       GoStrings.Contains key "=" = false →
       (∀ e, e ∈ post → (MappingWithEquals.cut e).1 ≠ key) →
       MappingWithEquals.get key (getServiceEnv c) = Some (Some value))
  ∧ (∀ key, MappingWithEquals.get key (getServiceEnv c) = None
            ↔ key ∉ (MappingWithEquals.cut <$> values).*1)
  ∧ (∀ earlier env,
       values = earlier ++ [env] →
       (getServiceEnv c).*1
       = if decide ((MappingWithEquals.cut env).1
                    ∈ (MappingWithEquals.NewMappingWithEquals earlier).*1)
         then (MappingWithEquals.NewMappingWithEquals earlier).*1
         else (MappingWithEquals.NewMappingWithEquals earlier).*1
              ++ [(MappingWithEquals.cut env).1])
  ∧ (NoDup (MappingWithEquals.cut <$> values).*1 →
     getServiceEnv c = MappingWithEquals.cut <$> values).
Proof.
  unfold getServiceEnv. simpl. split_and!.
  - apply NewMappingWithEquals_NoDup.
  - intros pre key post -> Hbare Hpost.
    pose proof (NewMappingWithEquals_last pre post key) as Hlast.
    rewrite (cut_bare key Hbare) in Hlast. by apply Hlast.
  - intros pre key value post -> Hkey Hpost.
    pose proof (NewMappingWithEquals_last pre post (key +:+ String "=" value)) as Hlast.
    rewrite (cut_assigned key value Hkey) in Hlast. by apply Hlast.
  - intros key. rewrite get_None.
    split; intros Hk Hin; apply Hk; by apply NewMappingWithEquals_keys.
  - intros earlier env ->. by rewrite NewMappingWithEquals_snoc, assign_keys.
  - apply NewMappingWithEquals_distinct.
Qed.

Lemma environment_mapping_witness :
  let c := {| ContainerJSON.Name := "/web";
              ContainerJSON.Config :=
                {| Config.Image := "nginx";
                   Config.Env := ["PATH=/bin"; "DEBUG"; "OPTS=a=b"; "EMPTY="; "PATH=/usr/bin"];
                   Config.Entrypoint := None; Config.Cmd := None;
                   Config.ExposedPorts := [] |};
              ContainerJSON.HostConfig :=
                {| HostConfig.PortBindings := []; HostConfig.Binds := [];
                   HostConfig.Mounts := [] |} |} in
  MappingWithEquals.get "DEBUG" (getServiceEnv c) = Some None
  ∧ MappingWithEquals.get "OPTS" (getServiceEnv c) = Some (Some "a=b")
  ∧ MappingWithEquals.get "EMPTY" (getServiceEnv c) = Some (Some "")
  ∧ MappingWithEquals.get "PATH" (getServiceEnv c) = Some (Some "/usr/bin").
Proof.
  intros c. destruct (environment_mapping c) as (_ & Hbare & Hassigned & _).
  split_and!.
  - apply (Hbare ["PATH=/bin"] "DEBUG" ["OPTS=a=b"; "EMPTY="; "PATH=/usr/bin"]);
      [reflexivity..|].
    intros e He. repeat (apply elem_of_cons in He as [->|He]; [by vm_compute|]).
    by apply elem_of_nil in He.
  - apply (Hassigned ["PATH=/bin"; "DEBUG"] "OPTS" "a=b" ["EMPTY="; "PATH=/usr/bin"]);
      [reflexivity..|].
    intros e He. repeat (apply elem_of_cons in He as [->|He]; [by vm_compute|]).
    by apply elem_of_nil in He.
  - apply (Hassigned ["PATH=/bin"; "DEBUG"; "OPTS=a=b"] "EMPTY" "" ["PATH=/usr/bin"]);
      [reflexivity..|].
    intros e He. repeat (apply elem_of_cons in He as [->|He]; [by vm_compute|]).
    by apply elem_of_nil in He.
  - apply (Hassigned ["PATH=/bin"; "DEBUG"; "OPTS=a=b"; "EMPTY="] "PATH" "/usr/bin" []);
      [reflexivity..|].
    intros e He. by apply elem_of_nil in He.
Defined.

Example environment_mapping_order :
  MappingWithEquals.NewMappingWithEquals
    ["PATH=/bin"; "DEBUG"; "OPTS=a=b"; "EMPTY="; "PATH=/usr/bin"]
  = [("PATH", Some "/usr/bin"); ("DEBUG", None); ("OPTS", Some "a=b"); ("EMPTY", Some "")].
Proof. reflexivity. Qed.

(** ** The end-to-end example of the specification *)

Example end_to_end :
  ∃ w p web service1,
    @project Fixture.ports
      (Fixture.world [("a", Fixture.web); ("b", Fixture.unnamed)] Fixture.names)
      Fixture.opts ["a"; "b"] = (w, inr p)
    ∧ dom (Project.Services p) = {[ "web"; "service-1" ]}
    ∧ Project.Services p !! "web" = Some web
    ∧ ServiceConfig.Ports web
      = [ {| ServicePortConfig.HostIP := "0.0.0.0";
             ServicePortConfig.Published := "8080";
             ServicePortConfig.Target := 80 |} ]
    ∧ ServiceConfig.Expose web = []
    ∧ ServiceConfig.Command web = None
    ∧ Project.Services p !! "service-1" = Some service1
    ∧ ServiceConfig.Command service1 = Some ["sh"; "-c"; "run"].
Proof.
  eexists _, _, _, _. split; [reflexivity|]. simpl.
  split_and!; reflexivity.
Qed.

(** * Further properties *)

(** ** Port mapper *)

Section PortMore.
Context `{!PortMethods}.

(** X1: the exposed-port list is read off the exposed set alone, in the
    order of its visit: one bare port number for each exposed port whose
    number is not that of a bound entry of the table, whatever the
    protocols of the two are. *)
Theorem exposed_ports_unbound (c : ContainerJSON.t) :
  (getServiceBindingsPorts c).2
  = Port_Port <$>
      filter (λ exposed,
                ¬ published_port (HostConfig.PortBindings (ContainerJSON.HostConfig c))
                    (Port_Port exposed))
             (Config.ExposedPorts (ContainerJSON.Config c)).
Proof.
  rewrite getServiceBindingsPorts_unfold. simpl. f_equal.
  apply list_filter_iff. intros exposed.
  rewrite foldl_bindPort_marks. simpl. unfold published_port.
  rewrite Exists_exists, lookup_empty. split.
  - intros [_ Hall] (entry & Hin & Hne & Heq). by apply (Hall entry).
  - intros Hnone. split; [done|]. intros entry Hin Hne Heq.
    apply Hnone. by exists entry.
Qed.

(** X2: when no entry of the table has a host binding, the empty table
    included, nothing is published and every exposed port is listed. *)
Theorem no_binding_all_exposed (c : ContainerJSON.t) :
  Forall (λ entry, entry.2 = []) (HostConfig.PortBindings (ContainerJSON.HostConfig c)) →
  getServiceBindingsPorts c
  = ([], Port_Port <$> Config.ExposedPorts (ContainerJSON.Config c)).
Proof.
  intros Hall. rewrite getServiceBindingsPorts_unfold. f_equal.
  - induction Hall as [|entry entries Hentry _ IH]; [done|].
    rewrite bind_cons, Hentry, IH. done.
  - f_equal.
    induction (Config.ExposedPorts (ContainerJSON.Config c)) as [|exposed rest IH];
      [done|].
    rewrite filter_cons_True; [by rewrite IH|].
    apply foldl_bindPort_marks. simpl. split; [done|].
    intros entry Hin Hne. rewrite Forall_forall in Hall. by apply Hall in Hin.
Qed.

(** X3: there are as many published entries as host bindings in the whole
    table, and the target of each is a [uint32]. *)
Theorem published_ports_count (c : ContainerJSON.t) :
  length (getServiceBindingsPorts c).1
  = sum_list_with (λ entry, length entry.2)
      (HostConfig.PortBindings (ContainerJSON.HostConfig c))
  ∧ Forall (λ portConfig, 0 ≤ ServicePortConfig.Target portConfig < 2 ^ 32)
      (getServiceBindingsPorts c).1.
Proof.
  rewrite getServiceBindingsPorts_unfold. simpl.
  induction (HostConfig.PortBindings (ContainerJSON.HostConfig c))
    as [|entry entries [IHlen IHall]]; [done|].
  rewrite bind_cons. split.
  - rewrite length_app, length_fmap, IHlen. done.
  - apply Forall_app. split; [|done].
    apply Forall_fmap, Forall_forall. intros binding _. simpl.
    unfold uint32. apply Z.mod_pos_bound. lia.
Qed.

End PortMore.

Lemma no_binding_all_exposed_witness :
  @getServiceBindingsPorts Fixture.ports
    (Fixture.container "/db" "postgres" None ["5432/tcp"] [("5432/tcp", [])] [])
  = ([], ["5432"]).
Proof.
  apply (@no_binding_all_exposed Fixture.ports
           (Fixture.container "/db" "postgres" None ["5432/tcp"] [("5432/tcp", [])] [])).
  simpl. repeat constructor.
Defined.

(** ** Mount mapper *)

Lemma Split_app_sep (a b : string) (sep : ascii) :
  GoStrings.Contains a sep = false →
  GoStrings.Split (a +:+ String sep b) sep = a :: GoStrings.Split b sep.
Proof.
  induction a as [|c a IH]; simpl.
  - intros _. by rewrite decide_True.
  - case_decide; [done|]. intros Ha. by rewrite (IH Ha).
Qed.

Section MountMore.
Context {E : Type}.

(** What the first loop gives for any list of legacy binds: the warnings
    are those of the strings with fewer than two fields, in order, and
    each other string gives one bind mount whose source and target are
    fields of it. *)
Lemma legacyBinds_partition (Binds : list string) :
  ∃ binds,
    length binds
    = length (filter (λ b, ¬ (length (GoStrings.Split b ":") < 2)%nat) Binds)
    ∧ Forall (λ v, ServiceVolumeConfig.Type_ v = "bind"
                   ∧ GoStrings.Contains (ServiceVolumeConfig.Source v) ":" = false
                   ∧ GoStrings.Contains (ServiceVolumeConfig.Target v) ":" = false
                   ∧ ServiceVolumeConfig.Consistency v = ""
                   ∧ ServiceVolumeConfig.Bind v = None
                   ∧ ServiceVolumeConfig.Volume v = None
                   ∧ ServiceVolumeConfig.Tmpfs v = None) binds
    ∧ ∀ acc, forM (E:=E) bindMount acc Binds
             = (BindWarning <$>
                  filter (λ b, (length (GoStrings.Split b ":") < 2)%nat) Binds,
                inr (acc ++ binds)).
Proof.
  induction Binds as [|b Binds (binds & Hlen & Hall & Hrest)].
  - exists []. split_and!; [done..|]. intros acc. simpl. by rewrite app_nil_r.
  - destruct (decide (length (GoStrings.Split b ":") < 2)%nat) as [Hshort|Hlong].
    + exists binds. split_and!; [|done|].
      * by rewrite filter_cons_False by (intros Hn; by apply Hn).
      * intros acc. simpl. rewrite (bindMount_short acc b Hshort), M_bind_inr, Hrest.
        by rewrite filter_cons_True.
    + destruct (GoStrings.Split b ":") as [|source [|target rest]] eqn:Hs;
        [simpl in Hlong; lia..|].
      exists (legacyBind source target (if decide (rest = ["rw"]) then false else true)
              :: binds).
      split_and!.
      * rewrite filter_cons_True by (rewrite Hs; done). simpl. by rewrite Hlen.
      * constructor; [|done]. simpl. split_and!; try done.
        -- apply (Split_fields_no_sep b). rewrite Hs. left.
        -- apply (Split_fields_no_sep b). rewrite Hs. right. left.
      * intros acc. simpl. rewrite (bindMount_fields acc b _ _ _ Hs), M_bind_inr, Hrest.
        rewrite filter_cons_False by (rewrite Hs; done).
        simpl. by rewrite <- app_assoc.
Qed.

(** The mounts of the first loop, one by one: each string of at least two
    fields gives its bind mount, in the order of the strings. *)
Lemma legacyBinds_pointwise (Binds : list string) :
  ∃ binds,
    Forall2 legacy_bind_of
      (filter (λ b, ¬ (length (GoStrings.Split b ":") < 2)%nat) Binds) binds
    ∧ ∀ acc, forM (E:=E) bindMount acc Binds
             = (BindWarning <$>
                  filter (λ b, (length (GoStrings.Split b ":") < 2)%nat) Binds,
                inr (acc ++ binds)).
Proof.
  induction Binds as [|b Binds (binds & Hall & Hrest)].
  - exists []. split; [constructor|]. intros acc. simpl. by rewrite app_nil_r.
  - destruct (decide (length (GoStrings.Split b ":") < 2)%nat) as [Hshort|Hlong].
    + exists binds. split.
      * by rewrite filter_cons_False by (intros Hn; by apply Hn).
      * intros acc. simpl. rewrite (bindMount_short acc b Hshort), M_bind_inr, Hrest.
        by rewrite filter_cons_True.
    + destruct (GoStrings.Split b ":") as [|source [|target rest]] eqn:Hs;
        [simpl in Hlong; lia..|].
      exists (legacyBind source target (if decide (rest = ["rw"]) then false else true)
              :: binds).
      split.
      * rewrite filter_cons_True by (rewrite Hs; done).
        constructor; [|done]. by exists source, target, rest.
      * intros acc. simpl. rewrite (bindMount_fields acc b _ _ _ Hs), M_bind_inr, Hrest.
        rewrite filter_cons_False by (rewrite Hs; done).
        simpl. by rewrite <- app_assoc.
Qed.

(** X4: the mount mapper never fails. It prints one warning for each
    legacy bind with fewer than two fields, in the order of the binds, and
    nothing for a structured mount; the volumes are, for each other legacy
    bind and in their order, the bind mount of that string, followed by one
    volume for each structured mount, in order. So warnings and volumes
    together are as many as the binds and mounts, and the volumes stay
    within the capacity reserved for them. *)
Theorem mounts_partition (c : ContainerJSON.t) :
  ∃ binds,
    getServiceMounts (E:=E) c
    = (BindWarning <$>
         filter (λ b, (length (GoStrings.Split b ":") < 2)%nat)
           (HostConfig.Binds (ContainerJSON.HostConfig c)),
       inr (binds ++ (structMount <$> HostConfig.Mounts (ContainerJSON.HostConfig c))))
    ∧ Forall2 legacy_bind_of
        (filter (λ b, ¬ (length (GoStrings.Split b ":") < 2)%nat)
           (HostConfig.Binds (ContainerJSON.HostConfig c)))
        binds
    ∧ length binds
      = length (filter (λ b, ¬ (length (GoStrings.Split b ":") < 2)%nat)
                  (HostConfig.Binds (ContainerJSON.HostConfig c)))
    ∧ (length (filter (λ b, (length (GoStrings.Split b ":") < 2)%nat)
                 (HostConfig.Binds (ContainerJSON.HostConfig c)))
       + length (binds ++ (structMount <$> HostConfig.Mounts (ContainerJSON.HostConfig c)))
       = length (HostConfig.Binds (ContainerJSON.HostConfig c))
         + length (HostConfig.Mounts (ContainerJSON.HostConfig c)))%nat
    ∧ (length (binds ++ (structMount <$> HostConfig.Mounts (ContainerJSON.HostConfig c)))
       ≤ length (HostConfig.Binds (ContainerJSON.HostConfig c))
         + length (HostConfig.Mounts (ContainerJSON.HostConfig c)))%nat.
Proof.
  destruct (legacyBinds_pointwise (HostConfig.Binds (ContainerJSON.HostConfig c)))
    as (binds & Hall & Hrun).
  exists binds.
  pose proof (Forall2_length _ _ _ Hall) as Hlen. symmetry in Hlen.
  pose proof (filter_app_complement
                (λ b, (length (GoStrings.Split b ":") < 2)%nat)
                (HostConfig.Binds (ContainerJSON.HostConfig c))) as Hperm.
  apply Permutation_length in Hperm. rewrite length_app in Hperm.
  split_and!; [|done|done|rewrite length_app, length_fmap, Hlen; lia..].
  unfold getServiceMounts, legacyBinds. rewrite Hrun, M_bind_inr. simpl.
  unfold mret, M_ret. simpl. by rewrite app_nil_r, structMounts_foldl.
Qed.

(** X5: every mount built from a legacy bind has type [bind], carries no
    option block and no consistency, and neither its source nor its target
    contains a [':']. *)
Theorem legacy_binds_shape (Binds : list string) (w : list event)
    (binds : list ServiceVolumeConfig.t) :
  legacyBinds (E:=E) Binds = (w, inr binds) →
  Forall (λ v, ServiceVolumeConfig.Type_ v = "bind"
               ∧ GoStrings.Contains (ServiceVolumeConfig.Source v) ":" = false
               ∧ GoStrings.Contains (ServiceVolumeConfig.Target v) ":" = false
               ∧ ServiceVolumeConfig.Consistency v = ""
               ∧ ServiceVolumeConfig.Bind v = None
               ∧ ServiceVolumeConfig.Volume v = None
               ∧ ServiceVolumeConfig.Tmpfs v = None) binds.
Proof.
  destruct (legacyBinds_partition Binds) as (binds' & _ & Hall & Hrun).
  unfold legacyBinds. rewrite Hrun. by intros [= _ <-].
Qed.

(** X6: a legacy bind written from a source and a target that hold no
    [':'] is read back as that source and that target: read-only for
    [source:target], read-write for [source:target:rw], and read-only for
    [source:target:mode] with any other mode. *)
Theorem legacy_bind_round_trip (mounts : list ServiceVolumeConfig.t)
    (source target : string) :
  GoStrings.Contains source ":" = false →
  GoStrings.Contains target ":" = false →
  bindMount (E:=E) mounts (source +:+ ":" +:+ target)
  = ([], inr (mounts ++ [legacyBind source target true]))
  ∧ bindMount (E:=E) mounts (source +:+ ":" +:+ target +:+ ":rw")
    = ([], inr (mounts ++ [legacyBind source target false]))
  ∧ (∀ mode, GoStrings.Contains mode ":" = false → mode ≠ "rw" →
       bindMount (E:=E) mounts (source +:+ ":" +:+ target +:+ ":" +:+ mode)
       = ([], inr (mounts ++ [legacyBind source target true]))).
Proof.
  intros Hs Ht. split_and!.
  - rewrite (bindMount_fields mounts _ source target []); [done|].
    change (":" +:+ target) with (String ":" target).
    by rewrite Split_app_sep, Split_no_sep.
  - rewrite (bindMount_fields mounts _ source target ["rw"]); [done|].
    change (":" +:+ target +:+ ":rw") with (String ":" (target +:+ String ":" "rw")).
    by rewrite !Split_app_sep.
  - intros mode Hm Hne.
    rewrite (bindMount_fields mounts _ source target [mode]).
    + by rewrite decide_False by (intros [= ?]; done).
    + change (":" +:+ target +:+ ":" +:+ mode)
        with (String ":" (target +:+ String ":" mode)).
      by rewrite !Split_app_sep, Split_no_sep.
Qed.

End MountMore.

Lemma legacy_binds_shape_witness :
  Forall (λ v, ServiceVolumeConfig.Type_ v = "bind"
               ∧ GoStrings.Contains (ServiceVolumeConfig.Source v) ":" = false
               ∧ GoStrings.Contains (ServiceVolumeConfig.Target v) ":" = false
               ∧ ServiceVolumeConfig.Consistency v = ""
               ∧ ServiceVolumeConfig.Bind v = None
               ∧ ServiceVolumeConfig.Volume v = None
               ∧ ServiceVolumeConfig.Tmpfs v = None)
    [legacyBind "/src" "/dst" true; legacyBind "/a" "/b" true].
Proof.
  apply (legacy_binds_shape (E:=string) ["/src:/dst"; "oops"; "/a:/b:rw:z"]
           [BindWarning "oops"]).
  reflexivity.
Defined.

Lemma legacy_bind_round_trip_witness :
  bindMount (E:=string) [] "/var/lib/data:/data:rw"
  = ([], inr [legacyBind "/var/lib/data" "/data" false]).
Proof.
  apply (proj1 (proj2 (legacy_bind_round_trip (E:=string) [] "/var/lib/data" "/data"
                         eq_refl eq_refl))).
Defined.

(** ** Name mapper *)

(** X7: a display name that is not empty is the service name, or the
    service name behind one ['/']; and the service name is empty for the
    display name ["/"] and for no other. *)
Theorem service_name_shape (c : ContainerJSON.t) (i : nat) :
  (ContainerJSON.Name c ≠ "" →
     ContainerJSON.Name c = getServiceName c (Z.of_nat i)
     ∨ ContainerJSON.Name c = String "/" (getServiceName c (Z.of_nat i)))
  ∧ (getServiceName c (Z.of_nat i) = "" ↔ ContainerJSON.Name c = "/").
Proof.
  unfold getServiceName. split.
  - intros Hne. rewrite decide_True by done.
    destruct (GoStrings.HasPrefix (ContainerJSON.Name c) "/") eqn:Hp; [|by left].
    apply HasPrefix_slash in Hp as [rest ->]. by right.
  - case_decide as Hn.
    + destruct (GoStrings.HasPrefix (ContainerJSON.Name c) "/") eqn:Hp.
      * apply HasPrefix_slash in Hp as [rest ->]. simpl.
        split; [by intros ->|by intros [= ->]].
      * split; [done|]. intros Heq. by rewrite Heq in Hp.
    + rewrite Hn.
      change ("service-" +:+ Sprintf_d (Z.of_nat i))
        with (String "s" ("ervice-" +:+ Sprintf_d (Z.of_nat i))).
      split; discriminate.
Qed.

Lemma service_name_shape_witness :
  ContainerJSON.Name Fixture.web = String "/" (getServiceName Fixture.web (Z.of_nat 0)).
Proof.
  destruct (proj1 (service_name_shape Fixture.web 0)) as [Hsame|Hslash].
  - discriminate.
  - discriminate Hsame.
  - exact Hslash.
Defined.

(** ** The run *)

Lemma length_remove_dups_le `{EqDecision A} (l : list A) :
  (length (remove_dups l) ≤ length l)%nat.
Proof.
  induction l as [|x l IH]; simpl; [done|].
  destruct (decide_rel (∈) x l); simpl; lia.
Qed.

Lemma length_remove_dups_eq `{EqDecision A} (l : list A) :
  length (remove_dups l) = length l ↔ NoDup l.
Proof.
  induction l as [|x l IH]; simpl.
  - split; [constructor|done].
  - pose proof (length_remove_dups_le l). rewrite NoDup_cons.
    destruct (decide_rel (∈) x l); simpl.
    + split; [lia|]. by intros [? _].
    + rewrite <- IH. split; [intros [= ?]; done|intros [_ ->]; done].
Qed.

Section RunMore.
Context `{!PortMethods} `{!World}.

Lemma answers_length args : ∀ i cs, answers i args cs → length cs = length args.
Proof.
  induction args as [|arg args IH]; intros i [|c cs] Hans; try done.
  destruct Hans as [_ Hans]. simpl. by rewrite (IH _ _ Hans).
Qed.

(** A failure of the loop is the failure of an inspect call that came
    after successful ones. *)
Lemma inspectAll_error args : ∀ i services err,
  (inspectAll i args services).2 = inl err →
  ∃ pre arg post cs,
    args = pre ++ arg :: post
    ∧ answers i pre cs
    ∧ ContainerInspect (i + length pre) arg = inl err.
Proof.
  induction args as [|a args IH]; intros i services err; simpl; [done|].
  destruct (ContainerInspect i a) as [e|c] eqn:Hc.
  - intros [= <-]. exists [], a, args, []. split_and!; [done..|].
    simpl. by rewrite Nat.add_0_r.
  - destruct (assemble_unfold c i) as (w1 & volumes & _ & _ & Ha).
    rewrite Ha, M_bind_inr. simpl. intros Herr.
    apply IH in Herr as (pre & arg & post & cs & -> & Hans & Hfail).
    exists (a :: pre), arg, post, (c :: cs). split_and!; [done..|].
    simpl. by rewrite <- Nat.add_succ_comm.
Qed.

(** X9: when every inspect call succeeds the run returns no error. After
    the opening line it prints warnings, then the encoder's failure if
    there is one, and last the document, once. *)
Theorem run_prints_document_last opts args cs :
  answers 0 args cs →
  ∃ w p,
    Forall is_warning w
    ∧ project opts args = (Experimental :: w, inr p)
    ∧ runGenerate opts args
      = (Experimental :: w
           ++ match (MarshalYAML p).2 with
              | Some err => [MarshalFailed (Error err)]
              | None => []
              end
           ++ [Document (MarshalYAML p).1],
         inr tt).
Proof.
  intros Hans.
  destruct (inspectAll_ok args 0 cs Hans) as (w2 & svcs & Hw2 & _ & Hall).
  destruct (getWorkingDir_total opts) as (w1 & dir & Hw1 & Hwd).
  eexists (w1 ++ w2), _. split; [by apply Forall_app|].
  assert (project opts args
          = (Experimental :: w1 ++ w2,
             inr {| Project.Name := getName opts;
                    Project.WorkingDir := dir;
                    Project.Services := collect ∅ svcs |})) as Hp.
  { unfold project. rewrite Hwd, Hall. unfold mbind, M_bind, print. simpl.
    by rewrite app_nil_r. }
  split; [exact Hp|]. unfold runGenerate. rewrite Hp, M_bind_inr. simpl.
  destruct (MarshalYAML _).2; simpl; by rewrite <- !app_assoc.
Qed.

(** X10: the only error that the run returns is the error of an inspect
    call, the first that fails. *)
Theorem run_error_is_inspect_error opts args err :
  (runGenerate opts args).2 = inl err →
  ∃ pre arg post cs,
    args = pre ++ arg :: post
    ∧ answers 0 pre cs
    ∧ ContainerInspect (length pre) arg = inl err.
Proof.
  unfold runGenerate, project.
  destruct (getWorkingDir_total opts) as (w1 & dir & _ & Hwd). rewrite Hwd.
  destruct (inspectAll 0 args ∅) as [w2 [e|services]] eqn:Hall.
  - unfold mbind, M_bind, print. simpl. intros [= <-].
    apply (inspectAll_error args 0 ∅). by rewrite Hall.
  - unfold mbind, M_bind, print. simpl.
    destruct (MarshalYAML _).2; simpl; discriminate.
Qed.

(** X11: the project takes its name from the option as it is, the empty
    name included, and its working directory from the option when that is
    set; otherwise from the process, or, with a warning, the empty
    directory when the process cannot tell. *)
Theorem project_metadata opts args cs :
  answers 0 args cs →
  ∃ w p,
    project opts args = (w, inr p)
    ∧ Project.Name p = generateOptions.ProjectName opts
    ∧ (generateOptions.WorkDir opts ≠ "" →
       Project.WorkingDir p = generateOptions.WorkDir opts)
    ∧ (generateOptions.WorkDir opts = "" →
       ∀ dir, Getwd = inr dir → Project.WorkingDir p = dir)
    ∧ (generateOptions.WorkDir opts = "" →
       ∀ err, Getwd = inl err →
         Project.WorkingDir p = "" ∧ GetwdWarning (Error err) ∈ w).
Proof.
  intros Hans.
  destruct (inspectAll_ok args 0 cs Hans) as (w2 & svcs & _ & _ & Hall).
  assert (getName opts = generateOptions.ProjectName opts) as Hname.
  { unfold getName. by case_decide. }
  unfold project, getWorkingDir. rewrite Hall, Hname.
  case_decide as Hwd.
  - eexists _, _. split; [reflexivity|]. simpl. by split_and!.
  - destruct Getwd as [e|dir] eqn:Hg.
    + eexists _, _. split; [reflexivity|]. simpl.
      split_and!; [done..|].
      intros _ err [= <-]. split; [done|]. right. left.
    + eexists _, _. split; [reflexivity|]. simpl.
      split_and!; [done|done| |done].
      by intros _ dir' [= <-].
Qed.

(** X12: the project never holds more services than there are identifiers,
    and holds as many exactly when the names derived for the containers
    are pairwise distinct. *)
Theorem services_at_most_identifiers opts args cs :
  answers 0 args cs →
  ∃ w p,
    project opts args = (w, inr p)
    ∧ (size (Project.Services p) ≤ length args)%nat
    ∧ (size (Project.Services p) = length args
       ↔ NoDup (imap (λ i c, getServiceName c (Z.of_nat i)) cs)).
Proof.
  intros Hans.
  destruct (project_ok opts args cs Hans) as (w & dir & svcs & Hsvcs & Hp).
  eexists w, _. split; [exact Hp|]. simpl.
  rewrite collect_size, (services_of_names _ _ _ Hsvcs).
  assert (length (imap (λ j c, getServiceName c (Z.of_nat (0 + j))) cs) = length args)
    as Hlen.
  { by rewrite length_imap, (answers_length _ _ _ Hans). }
  split.
  - rewrite <- Hlen. apply length_remove_dups_le.
  - rewrite <- Hlen. apply length_remove_dups_eq.
Qed.

End RunMore.

Lemma run_prints_document_last_witness :
  @runGenerate Fixture.ports
    (Fixture.world [("a", Fixture.web); ("b", Fixture.unnamed)] Fixture.names)
    Fixture.opts ["a"; "b"]
  = ([Experimental; Document "web,service-1"], inr tt).
Proof.
  destruct (@run_prints_document_last Fixture.ports
              (Fixture.world [("a", Fixture.web); ("b", Fixture.unnamed)] Fixture.names)
              Fixture.opts ["a"; "b"] [Fixture.web; Fixture.unnamed])
    as (w & p & _ & Hp & Hrun).
  - simpl. repeat split; reflexivity.
  - rewrite Hrun. injection Hp as <- <-. reflexivity.
Defined.

Lemma run_error_is_inspect_error_witness :
  ∃ pre arg post cs,
    ["a"; "ghost"; "a"] = pre ++ arg :: post
    ∧ @answers (Fixture.world [("a", Fixture.web)] Fixture.names) 0 pre cs
    ∧ @ContainerInspect (Fixture.world [("a", Fixture.web)] Fixture.names)
        (length pre) arg = inl "No such container: ghost".
Proof.
  apply (@run_error_is_inspect_error Fixture.ports
           (Fixture.world [("a", Fixture.web)] Fixture.names)
           Fixture.opts ["a"; "ghost"; "a"] "No such container: ghost").
  reflexivity.
Defined.

Lemma project_metadata_witness :
  ∃ w p,
    @project Fixture.ports (Fixture.world [("a", Fixture.web)] Fixture.names)
      Fixture.opts ["a"] = (w, inr p)
    ∧ Project.Name p = "demo"
    ∧ Project.WorkingDir p = "/work".
Proof.
  destruct (@project_metadata Fixture.ports
              (Fixture.world [("a", Fixture.web)] Fixture.names)
              Fixture.opts ["a"] [Fixture.web])
    as (w & p & Hp & Hname & _ & Hcwd & _).
  - simpl. repeat split; reflexivity.
  - exists w, p. split_and!; [exact Hp|exact Hname|].
    apply Hcwd; reflexivity.
Defined.

Lemma services_at_most_identifiers_witness :
  ∃ w p,
    @project Fixture.ports
      (Fixture.world [("a", Fixture.web); ("b", Fixture.unnamed)] Fixture.names)
      Fixture.opts ["a"; "b"] = (w, inr p)
    ∧ size (Project.Services p) = length ["a"; "b"].
Proof.
  destruct (@services_at_most_identifiers Fixture.ports
              (Fixture.world [("a", Fixture.web); ("b", Fixture.unnamed)] Fixture.names)
              Fixture.opts ["a"; "b"] [Fixture.web; Fixture.unnamed])
    as (w & p & Hp & _ & Hsize).
  - simpl. repeat split; reflexivity.
  - exists w, p. split; [exact Hp|]. apply Hsize.
    vm_compute. apply NoDup_cons. split; [|apply NoDup_singleton].
    intros Hin%list_elem_of_singleton. discriminate Hin.
Defined.

(** ** What is printed where *)

Section RunStreams.
Context `{!PortMethods} `{!World}.

Lemma warnings_on_stdout (w : list event) :
  Forall is_warning w → Forall (λ ev, (render ev).1 = Stdout) w.
Proof. intros Hw. eapply Forall_impl; [exact Hw|]. by intros []. Qed.

(** Whatever the engine answers, the loop prints on the standard output. *)
Lemma inspectAll_on_stdout args : ∀ i services,
  Forall (λ ev, (render ev).1 = Stdout) (inspectAll i args services).1.
Proof.
  induction args as [|arg args IH]; intros i services; simpl; [done|].
  destruct (ContainerInspect i arg) as [err|c].
  - by repeat constructor.
  - destruct (assemble_unfold c i) as (w & volumes & Hw & _ & Ha).
    rewrite Ha, M_bind_inr. simpl. apply Forall_app. split; [|apply IH].
    by apply warnings_on_stdout.
Qed.

(** X8: whatever the engine and the encoder answer, a run prints first the
    opening line, on the standard error, and everything after it on the
    standard output: the warnings, the failure of an inspect call or of
    the encoder, and the document all share that stream. *)
Theorem run_output_streams opts args :
  ∃ w,
    (runGenerate opts args).1 = Experimental :: w
    ∧ (render Experimental).1 = Stderr
    ∧ Forall (λ ev, (render ev).1 = Stdout) w.
Proof.
  destruct (getWorkingDir_total opts) as (w1 & dir & Hw1 & Hwd).
  pose proof (inspectAll_on_stdout args 0 ∅) as Hloop.
  unfold runGenerate, project. rewrite Hwd.
  destruct (inspectAll 0 args ∅) as [w2 [err|services]]; simpl in Hloop.
  - exists (w1 ++ w2). unfold mbind, M_bind, print. simpl.
    split_and!; [done..|]. apply Forall_app. split; [|done].
    by apply warnings_on_stdout.
  - apply warnings_on_stdout in Hw1.
    unfold mbind, M_bind, print. simpl.
    destruct (MarshalYAML _).2; simpl;
      (eexists; split; [reflexivity|]; split; [done|]);
      rewrite !Forall_app; split_and!; try done; by repeat constructor.
Qed.

End RunStreams.
